(** * simple-mailship: the record-to-message pipeline and the dispatch loop

    A shallow embedding of [mailer.py]: JSON record loading
    ([load_json_records]), address extraction and de-duplication
    ([extract_emails]), the SMTP dispatch loop ([send_messages]) and the
    command-line driver ([main]), followed by the properties of the
    specification stated over these definitions.

    Conventions of the embedding.
    - A Python [str] is a [string]; a character is read as a code point below
      256, on which [isspace], [lower] and [strip] below agree with Python's
      [str.isspace], [str.lower] and [str.strip].
    - A Python [dict] is an association list in insertion order, as
      [dict.items()] enumerates it.
    - A Python [float] is an exact rational ([Q]): rounding, infinities and
      NaN are outside the model.
    - A function that may raise returns a [result]; effects (printing,
      sleeping, SMTP traffic, preview files) are recorded as a list of
      [event]s in program order.
    - The collaborators that live outside the repository ([validate_email],
      Jinja's [render], [html2text]) and the outside world (environment,
      file system, SMTP server) are parameters. *)

From stdpp Require Import base decidable option list sets gmap strings.
From Stdlib Require Import QArith.
From Stdlib Require Import Ascii.

#[local] Set Warnings "-clear-no-such-hyp".

Close Scope Q_scope.

Local Open Scope string_scope.
Local Open Scope list_scope.

(** ** Python values *)

Module Py.

(** Exceptions: the class name and the message. *)
Record exn := Exn { exn_class : string; exn_msg : string }.

Definition ValueError (msg : string) : exn := Exn "ValueError" msg.

Inductive result (A : Type) : Type :=
| Ok (a : A)
| Raise (e : exn).
Arguments Ok {A} a.
Arguments Raise {A} e.

(** What [json.load] produces. *)
#[local] Set Warnings "-register-all".
Inductive json : Type :=
| JNull
| JBool (b : bool)
| JInt (n : Z)
| JFloat (q : Q)
| JStr (s : string)
| JList (xs : list json)
| JDict (kv : list (string * json)).

(** [Dict[str, Any]] *)
Definition record : Type := list (string * json).

(** [d.get(key)], [None] when the key is absent. *)
Fixpoint dict_get (key : string) (d : record) : option json :=
  match d with
  | [] => None
  | (k, v) :: d' => if String.eqb k key then Some v else dict_get key d'
  end.

(** ** Characters and strings *)

Definition code (c : ascii) : N := N_of_ascii c.

(** [str.isspace] on one character. *)
Definition isspace (c : ascii) : bool :=
  let n := code c in
  ((9 <=? n) && (n <=? 13) || (28 <=? n) && (n <=? 32)
   || (n =? 133) || (n =? 160))%N.

(** [str.lower] on one character. *)
Definition lower_char (c : ascii) : ascii :=
  let n := code c in
  if ((65 <=? n) && (n <=? 90)
      || (192 <=? n) && (n <=? 222) && negb (n =? 215))%N
  then ascii_of_N (n + 32) else c.

(** [s.lower()] *)
Fixpoint lower (s : string) : string :=
  match s with
  | EmptyString => EmptyString
  | String c s' => String (lower_char c) (lower s')
  end.

Fixpoint lstrip (s : string) : string :=
  match s with
  | EmptyString => EmptyString
  | String c s' => if isspace c then lstrip s' else s
  end.

Fixpoint rstrip (s : string) : string :=
  match s with
  | EmptyString => EmptyString
  | String c s' =>
      match rstrip s' with
      | EmptyString => if isspace c then EmptyString else String c EmptyString
      | t => String c t
      end
  end.

(** [s.strip()] *)
Definition strip (s : string) : string := rstrip (lstrip s).

(** Truth value of a string: non-empty. *)
Definition str_truthy (s : string) : bool :=
  match s with EmptyString => false | _ => true end.

(** Truth value of an optional string ([None] and [""] are false). *)
Definition opt_truthy (o : option string) : bool :=
  match o with Some s => str_truthy s | None => false end.

(** [a or b] where [a] is an optional string and [b] a string. *)
Definition or_str (a : option string) (b : string) : string :=
  match a with
  | Some s => if str_truthy s then s else b
  | None => b
  end.

(** [a or b] where both are optional strings. *)
Definition or_opt (a b : option string) : option string :=
  if opt_truthy a then a else b.

End Py.
Export Py.

(** ** Regular expressions: the fragment [EMAIL_REGEX] needs *)

Module Re.

Inductive regex : Type :=
| Void
| Eps
| Class (p : ascii -> bool)
| Cat (r1 r2 : regex)
| Alt (r1 r2 : regex)
| Star (r : regex).

Fixpoint nullable (r : regex) : bool :=
  match r with
  | Void => false
  | Eps => true
  | Class _ => false
  | Cat r1 r2 => nullable r1 && nullable r2
  | Alt r1 r2 => nullable r1 || nullable r2
  | Star _ => true
  end.

(** Brzozowski derivative. *)
Fixpoint deriv (c : ascii) (r : regex) : regex :=
  match r with
  | Void => Void
  | Eps => Void
  | Class p => if p c then Eps else Void
  | Cat r1 r2 =>
      if nullable r1 then Alt (Cat (deriv c r1) r2) (deriv c r2)
      else Cat (deriv c r1) r2
  | Alt r1 r2 => Alt (deriv c r1) (deriv c r2)
  | Star r1 => Cat (deriv c r1) (Star r1)
  end.

Fixpoint fullmatch (r : regex) (s : string) : bool :=
  match s with
  | EmptyString => nullable r
  | String c s' => fullmatch (deriv c r) s'
  end.

Definition chr (c : ascii) : regex := Class (Ascii.eqb c).
Definition plus (r : regex) : regex := Cat r (Star r).

(** [$] without MULTILINE: the end of the string, or just before a newline
    that ends the string. *)
Definition dollar : regex := Alt Eps (chr "010").

(** [[^@\s]] *)
Definition not_at_space : regex :=
  Class (fun c => negb (Ascii.eqb c "@") && negb (isspace c)).

End Re.

(** ** mailer.py *)

Definition EMAIL_KEY_ALIASES : gset string := {[ "email"; "e-mail"; "mail" ]}.

(** [re.compile(r"^[^@\s]+@[^@\s]+\.[^@\s]+$")] *)
Definition EMAIL_REGEX : Re.regex :=
  Re.Cat (Re.plus Re.not_at_space)
    (Re.Cat (Re.chr "@")
       (Re.Cat (Re.plus Re.not_at_space)
          (Re.Cat (Re.chr ".")
             (Re.Cat (Re.plus Re.not_at_space) Re.dollar)))).

(** [EMAIL_REGEX.match(s)] is not [None]; the pattern is anchored at both
    ends. *)
Definition EMAIL_REGEX_match (s : string) : bool := Re.fullmatch EMAIL_REGEX s.

Definition unsupported_shape : string :=
  "Unsupported JSON shape: expected a list of objects or an object with 'items'/'results'/'data' list.".

(** [[x for x in xs if isinstance(x, dict)]] *)
Definition dicts_only (xs : list json) : list record :=
  omap (fun x => match x with JDict kv => Some kv | _ => None end) xs.

(** The loop [for key in ("items", "results", "data")] of
    [load_json_records]: the list under the first key that holds one. *)
Fixpoint first_list (keys : list string) (data : record) : option (list json) :=
  match keys with
  | [] => None
  | key :: keys' =>
      match dict_get key data with
      | Some (JList val) => Some val
      | _ => first_list keys' data
      end
  end.

(** [load_json_records], after [json.load] has produced [data]. *)
Definition load_json_records (data : json) : result (list record) :=
  match data with
  | JList xs => Ok (dicts_only xs)
  | JDict kv =>
      match first_list ["items"; "results"; "data"] kv with
      | Some val => Ok (dicts_only val)
      | None => Raise (ValueError unsupported_shape)
      end
  | _ => Raise (ValueError unsupported_shape)
  end.

(** ** Extraction and de-duplication *)

Section Extraction.

(** [email_validator.validate_email(s, check_deliverability=False)]:
    [Some normalized], or [None] when it raises [EmailNotValidError]. *)
Variable validate_email : string -> option string.

(** The inner loop of [extract_emails] over [rec.items()]: the stripped value
    of the first field whose lower-cased name is an alias and whose value is a
    string that is not blank. *)
Fixpoint find_email (items : record) : option string :=
  match items with
  | [] => None
  | (k, v) :: items' =>
      match v with
      | JStr s =>
          if bool_decide (lower k ∈ EMAIL_KEY_ALIASES) && str_truthy (strip s)
          then Some (strip s)
          else find_email items'
      | _ => find_email items'
      end
  end.

(** The [try]/[except] of [extract_emails]: the normalized address of the
    validator or, when it raises, the candidate itself if the regular
    expression accepts it. [None] is the [continue] after
    [missing.append(rec)]. *)
Definition clean_email (email_val : string) : option string :=
  match validate_email email_val with
  | Some normalized => Some normalized
  | None => if EMAIL_REGEX_match email_val then Some email_val else None
  end.

(** What one record contributes: its cleaned address, or [None] when the
    record goes to [missing]. *)
Definition address_of (rec : record) : option string :=
  match find_email rec with
  | None => None
  | Some email_val =>
      if str_truthy email_val then clean_email email_val else None
  end.

(** One iteration of the first loop of [extract_emails] on the state
    [(found, missing)]. *)
Definition extract_step (st : list (string * record) * list record)
    (rec : record) : list (string * record) * list record :=
  let '(found, missing) := st in
  match address_of rec with
  | None => (found, missing ++ [rec])
  | Some email_clean => (found ++ [(email_clean, rec)], missing)
  end.

(** The first loop of [extract_emails]. *)
Definition collect (records : list record)
    : list (string * record) * list record :=
  foldl extract_step ([], []) records.

(** One iteration of the second loop on the state [(seen, unique)]. *)
Definition dedup_step (st : gset string * list (string * record))
    (p : string * record) : gset string * list (string * record) :=
  let '(seen, unique) := st in
  let '(email, rec) := p in
  if bool_decide (lower email ∈ seen) then (seen, unique)
  else ({[ lower email ]} ∪ seen, unique ++ [(email, rec)]).

(** The second loop of [extract_emails]. *)
Definition dedup (found : list (string * record)) : list (string * record) :=
  snd (foldl dedup_step (∅, []) found).

Definition extract_emails (records : list record)
    : list (string * record) * list record :=
  let '(found, missing) := collect records in
  (dedup found, missing).

End Extraction.

(** ** Effects *)

(** [Config], as [Config.from_env] builds it. *)
Record Config := {
  smtp_host : string;
  smtp_port : Z;
  smtp_username : string;
  smtp_password : string;
  from_name : string;
  subject : string;
  template_path : string;
  reply_to : option string;
  rate_per_minute : option Q;
  use_ssl : bool
}.

(** The [EmailMessage] that [make_message] builds. The [Date] and
    [Message-ID] headers come from the clock and the host and are left out. *)
Record EmailMessage := {
  msg_subject : string;
  msg_from : string * string;
  msg_to : string;
  msg_reply_to : option string;
  msg_plain : string;
  msg_html : string
}.

(** The lines the program prints, by their format string. *)
Inductive line : Type :=
| LDryRun (n : nat)
    (* [DRY-RUN] Would send {n} message(s). No SMTP connection will be made. *)
| LOk (i total : nat) (to : string)
    (* [OK] {i}/{total} -> {to} *)
| LInfo (loaded with_email without : nat)
    (* [INFO] Loaded {} record(s). {} with emails, {} without or invalid. *)
| LSummary (total to_send skipped : nat)
    (* [SUMMARY] {} total; {} to send; {} skipped (no/invalid email). *)
| LConfigError (e : exn)
    (* [CONFIG ERROR] {e} *)
| LNotFound (path : string)
    (* [ERROR] JSON file not found: {path} *)
| LSendError (e : exn)
    (* [SEND ERROR] {e} *)
| LUsage (msg : string).
    (* argparse usage and error message *)

Inductive event : Type :=
| Print (l : line)                                   (* stdout *)
| PrintErr (l : line)                                (* stderr *)
| Connect (ssl : bool) (host : string) (port : Z)    (* SMTP_SSL(..) / SMTP(..) *)
| Ehlo                                               (* server.ehlo() *)
| StartTLS                                           (* server.starttls(..) *)
| Login (user password : string)                     (* server.login(..) *)
| SendMessage (m : EmailMessage)                     (* server.send_message(m) *)
| Quit                                               (* leaving the with block *)
| Sleep (seconds : Q)                                (* time.sleep(..) *)
| MkDir (dir : string)                               (* outdir.mkdir(..) *)
| WriteText (dir file content : string).             (* (outdir / file).write_text(..) *)

(** Calls that reach the SMTP server. *)
Definition is_transport (ev : event) : bool :=
  match ev with
  | Connect _ _ _ | Ehlo | StartTLS | Login _ _ | SendMessage _ | Quit => true
  | _ => false
  end.



(** A computation: the events it performed, then its value or the exception
    it raised. *)
Definition io (A : Type) : Type := list event * result A.

#[global] Instance io_ret : MRet io := fun A a => ([], Ok a).

#[global] Instance io_bind : MBind io := fun A B f m =>
  match m with
  | (t, Ok a) => let '(t', r) := f a in (t ++ t', r)
  | (t, Raise e) => (t, Raise e)
  end.

Definition emit (ev : event) : io unit := ([ev], Ok tt).

Definition raise {A} (e : exn) : io A := ([], Raise e).

(** A call into the outside world: the event, then the exception the world
    answers with, if any. *)
Definition call (ev : event) (err : option exn) : io unit :=
  ([ev], match err with None => Ok tt | Some e => Raise e end).

Definition lift {A} (r : result A) : io A := ([], r).

(** [try: m  except Exception as e: handler e] *)
Definition try_except {A} (m : io A) (handler : exn -> io A) : io A :=
  match m with
  | (t, Raise e) => let '(t', r) := handler e in (t ++ t', r)
  | ok => ok
  end.

(** The body of [with ... as server:], left on every path through
    [__exit__]. *)
Definition with_quit {A} (body : io A) : io A :=
  let '(t, r) := body in (t ++ [Quit], r).

Definition trace {A} (m : io A) : list event := fst m.
Definition outcome {A} (m : io A) : result A := snd m.

(** The SMTP server: for each call, the exception it answers with, if any.
    [send_err i] is for the [i]-th [send_message], counted from 1. *)
Record Smtp := {
  connect_err : option exn;
  ehlo_err : option exn;
  starttls_err : option exn;
  login_err : option exn;
  send_err : nat -> option exn
}.

(** ** Dispatch *)

(** Truth value of a float: non-zero. *)
Definition float_truthy (x : Q) : bool := negb (Qeq_bool x 0).

(** [x > 0] *)
Definition float_pos (x : Q) : bool := negb (Qle_bool x 0).

(** [rate_per_minute if rate_per_minute is not None else
    config.rate_per_minute] *)
Definition effective_rate (config : Config) (rate_arg : option Q) : option Q :=
  match rate_arg with
  | Some r => Some r
  | None => rate_per_minute config
  end.

(** [(60.0 / rate) if rate and rate > 0 else 0.0] *)
Definition pacing_delay (rate : option Q) : Q :=
  match rate with
  | Some r => if float_truthy r && float_pos r then (60 / r)%Q else 0%Q
  | None => 0%Q
  end.

(** [for i, msg in enumerate(messages, start=1)], from ordinal [i] on;
    [total] is [len(messages)]. *)
Fixpoint send_loop (server : Smtp) (delay : Q) (total i : nat)
    (messages : list EmailMessage) : io unit :=
  match messages with
  | [] => mret tt
  | msg :: rest =>
      call (SendMessage msg) (send_err server i) ;;
      emit (Print (LOk i total (msg_to msg))) ;;
      (if float_truthy delay && (i <? total)%nat
       then emit (Sleep delay) else mret tt) ;;
      send_loop server delay total (S i) rest
  end.

Definition send_messages (server : Smtp) (config : Config)
    (messages : list EmailMessage) (dry_run : bool) (rate_arg : option Q)
    : io unit :=
  if dry_run then
    emit (Print (LDryRun (length messages)))
  else
    let rate := effective_rate config rate_arg in
    let delay := pacing_delay rate in
    if use_ssl config then
      call (Connect true (smtp_host config) (smtp_port config))
           (connect_err server) ;;
      with_quit (
        call (Login (smtp_username config) (smtp_password config))
             (login_err server) ;;
        send_loop server delay (length messages) 1 messages)
    else
      call (Connect false (smtp_host config) (smtp_port config))
           (connect_err server) ;;
      with_quit (
        call Ehlo (ehlo_err server) ;;
        call StartTLS (starttls_err server) ;;
        call (Login (smtp_username config) (smtp_password config))
             (login_err server) ;;
        send_loop server delay (length messages) 1 messages).

(** ** Rendering and the driver *)

(** [argparse]'s namespace. *)
Record Args := {
  args_test : option string;
  args_list : option string;
  args_subject : option string;
  args_from_name : option string;
  args_reply_to : option string;
  args_rate : option Q;
  args_dry_run : bool;
  args_save_previews : option string;
  args_verbose : bool
}.

(** What the process finds outside: the outcome of [Config.from_env()], which
    paths exist, what [open] and [json.load] give for a path, and the SMTP
    server. *)
Record World := {
  from_env : result Config;
  path_exists : string -> bool;
  json_load : string -> result json;
  server : Smtp
}.

(** [[A-Za-z0-9_.+-]] *)
Definition is_safe (c : ascii) : bool :=
  let n := code c in
  ((48 <=? n) && (n <=? 57) || (65 <=? n) && (n <=? 90)
   || (97 <=? n) && (n <=? 122)
   || (n =? 95) || (n =? 46) || (n =? 43) || (n =? 45))%N.

(** [re.sub(r'[^A-Za-z0-9_.+-]+', '_', s)]: every maximal run of other
    characters becomes one underscore; [in_run] tells that the run has
    started. *)
Fixpoint sub_unsafe (in_run : bool) (s : string) : string :=
  match s with
  | EmptyString => EmptyString
  | String c s' =>
      if is_safe c then String c (sub_unsafe false s')
      else if in_run then sub_unsafe true s'
      else String "_" (sub_unsafe true s')
  end.

(** [SystemExit(2)], raised by [parser.error]. *)
Definition SystemExit2 : exn := Exn "SystemExit" "2".

(** The status the process ends with under [raise SystemExit(main())]: the
    returned code, the code of a [SystemExit], and 1 (after a traceback) for
    any other exception that leaves [main]. *)
Definition exit_status (r : result Z) : Z :=
  match r with
  | Ok status => status
  | Raise e => if String.eqb (exn_class e) "SystemExit" then 2%Z else 1%Z
  end.

Section Driver.

Variable validate_email : string -> option string.

(** Jinja: [env.get_template(name).render] on the record's fields, for the
    template at the given path. *)
Variable jinja_render : string -> record -> result string.

(** [html2text.HTML2Text().handle], configured as in [html_to_plaintext]. *)
Variable html2text : string -> string.

Definition render_template (template : string) (context : record)
    : io string :=
  lift (jinja_render template context).

Definition html_to_plaintext (html : string) : string :=
  strip (html2text html).

Definition make_message (from_name from_email to_email subject html_body : string)
    (reply_to : option string) : EmailMessage :=
  {| msg_subject := subject;
     msg_from := (from_name, from_email);
     msg_to := to_email;
     msg_reply_to := if opt_truthy reply_to then reply_to else None;
     msg_plain := html_to_plaintext html_body;
     msg_html := html_body |}.

(** [if args.save_previews: outdir.mkdir(..); (outdir / file).write_text(html)] *)
Definition save_preview (args : Args) (file html : string) : io unit :=
  match args_save_previews args with
  | Some outdir =>
      if str_truthy outdir
      then emit (MkDir outdir) ;; emit (WriteText outdir file html)
      else mret tt
  | None => mret tt
  end.

(** The context of the [--test] branch. *)
Definition test_context (email : string) : record :=
  [ ("name", JStr "Test Recipient"); ("location", JStr "N/A");
    ("county", JStr "N/A"); ("admin", JStr "N/A"); ("address", JStr "N/A");
    ("phone", JStr "N/A"); ("email", JStr email) ].

(** The loop [for email_addr, rec in pairs] of [main]: the messages in the
    order they are appended. *)
Fixpoint render_pairs (cfg : Config) (args : Args)
    (from_name subject : string) (reply_to : option string)
    (pairs : list (string * record)) : io (list EmailMessage) :=
  match pairs with
  | [] => mret []
  | (email_addr, rec) :: rest =>
      html ← render_template (template_path cfg) rec;
      save_preview args
        ("preview_" +:+ sub_unsafe false email_addr +:+ ".html") html ;;
      let msg :=
        make_message from_name (smtp_username cfg) email_addr subject html
          reply_to in
      msgs ← render_pairs cfg args from_name subject reply_to rest;
      mret (msg :: msgs)
  end.

(** The end of [main]: the [try] around [send_messages]. *)
Definition send_and_exit (w : World) (cfg : Config) (args : Args)
    (messages : list EmailMessage) : io Z :=
  try_except
    (send_messages (server w) cfg messages (args_dry_run args) (args_rate args) ;;
     mret 0%Z)
    (fun e => emit (PrintErr (LSendError e)) ;; mret 3%Z).

(** The [elif args.list:] branch of [main], up to the summary, then the
    dispatch. *)
Definition list_branch (w : World) (cfg : Config) (args : Args)
    (from_name subject : string) (reply_to : option string)
    (json_path : string) : io Z :=
  if negb (path_exists w json_path) then
    emit (PrintErr (LNotFound json_path)) ;; mret 2%Z
  else
    data ← lift (json_load w json_path);
    records ← lift (load_json_records data);
    let '(pairs, missing) := extract_emails validate_email records in
    (if args_verbose args
     then emit (Print (LInfo (length records) (length pairs) (length missing)))
     else mret tt) ;;
    messages ← render_pairs cfg args from_name subject reply_to pairs;
    emit (Print (LSummary (length records) (length pairs) (length missing))) ;;
    send_and_exit w cfg args messages.

(** The [--test] branch of [main], then the dispatch. *)
Definition test_branch (w : World) (cfg : Config) (args : Args)
    (from_name subject : string) (reply_to : option string)
    (test : string) : io Z :=
  html ← render_template (template_path cfg) (test_context test);
  save_preview args "preview_test.html" html ;;
  let msg :=
    make_message from_name (smtp_username cfg) test subject html reply_to in
  send_and_exit w cfg args [msg].

Definition main (w : World) (args : Args) : io Z :=
  match from_env w with
  | Raise e => emit (PrintErr (LConfigError e)) ;; mret 2%Z
  | Ok cfg =>
      let subject := or_str (args_subject args) (subject cfg) in
      let from_name := or_str (args_from_name args) (from_name cfg) in
      let reply_to := or_opt (args_reply_to args) (reply_to cfg) in
      if opt_truthy (args_test args) then
        test_branch w cfg args from_name subject reply_to
          (default "" (args_test args))
      else if opt_truthy (args_list args) then
        list_branch w cfg args from_name subject reply_to
          (default "" (args_list args))
      else
        emit (PrintErr (LUsage "Either --test or --list must be provided.")) ;;
        raise SystemExit2
  end.

End Driver.

(** ** Notions the properties are stated with *)

(** The key de-duplication compares: the whole address, lower-cased. *)
Definition key_of (p : string * record) : string := lower (fst p).

Definition keys (l : list (string * record)) : list string := key_of <$> l.
Arguments keys : simpl never.

(** The second loop of [extract_emails] from a given [seen] set, as a
    function of the remaining input. *)
Fixpoint dedup_from (seen : gset string) (l : list (string * record))
    : list (string * record) :=
  match l with
  | [] => []
  | p :: l' =>
      if bool_decide (key_of p ∈ seen) then dedup_from seen l'
      else p :: dedup_from ({[ key_of p ]} ∪ seen) l'
  end.








(** What the specification's dispatch returns in dry-run mode: one outcome
    per message, each [Skipped] with the reason, and the count. *)
Inductive DispatchOutcome : Type :=
| Sent
| Failed (reason : string)
| Skipped (reason : string).

Record DispatchReport := {
  outcomes : list DispatchOutcome;
  would_send : nat
}.

Definition spec_dry_run_report (messages : list EmailMessage) : DispatchReport :=
  {| outcomes := (fun _ => Skipped "dry-run") <$> messages;
     would_send := length messages |}.

(** ** Concrete inputs *)

(** A validator given by the table of the addresses it accepts, each with its
    normalized form; it raises on every other string. *)
Fixpoint table_validator (table : list (string * string)) (s : string)
    : option string :=
  match table with
  | [] => None
  | (candidate, normalized) :: table' =>
      if String.eqb candidate s then Some normalized
      else table_validator table' s
  end.

Definition recA : record := [("Name", JStr "A"); ("Email", JStr "a@a.com")].
Definition recB : record := [("Name", JStr "B"); ("mail", JStr "a@a.com")].
Definition recC : record := [("Name", JStr "C")].
Definition scenario : list record := [recA; recB; recC].

Definition recShout : record := [("email", JStr "john..doe@EXAMPLE.ORG")].

Definition reliable_server : Smtp :=
  {| connect_err := None; ehlo_err := None; starttls_err := None;
     login_err := None; send_err := fun _ => None |}.

Definition demo_config : Config :=
  {| smtp_host := "smtp.gmail.com"; smtp_port := 465;
     smtp_username := "sender@gmail.com"; smtp_password := "app-password";
     from_name := "Sender"; subject := "Hello";
     template_path := "email-template.html"; reply_to := None;
     rate_per_minute := Some (30 # 1)%Q; use_ssl := true |}.

Definition demo_world (data : json) : World :=
  {| from_env := Ok demo_config; path_exists := fun _ => true;
     json_load := fun _ => Ok data; server := reliable_server |}.

Definition demo_args : Args :=
  {| args_test := None; args_list := Some "contacts.json";
     args_subject := None; args_from_name := None; args_reply_to := None;
     args_rate := None; args_dry_run := false; args_save_previews := None;
     args_verbose := false |}.

Definition const_render (html : string) : string -> record -> result string :=
  fun _ _ => Ok html.


Definition demo_message (to : string) : EmailMessage :=
  {| msg_subject := "Hello"; msg_from := ("Sender", "sender@gmail.com");
     msg_to := to; msg_reply_to := None; msg_plain := "Hi"; msg_html := "<p>Hi</p>" |}.


(** A run of [main] that takes the [--list] branch and loads [data] from the
    file at [path]. *)
Definition list_run (w : World) (args : Args) (cfg : Config) (path : string)
    (data : json) : Prop :=
  from_env w = Ok cfg ∧ opt_truthy (args_test args) = false ∧
  args_list args = Some path ∧ str_truthy path = true ∧
  path_exists w path = true ∧ json_load w path = Ok data.

(** The pair a record contributes to [found], if any. *)
Definition addressed (validate_email : string -> option string) (rec : record)
    : option (string * record) :=
  (fun email => (email, rec)) <$> address_of validate_email rec.

(** The shapes [load_json_records] documents: a list, or an object with a
    list under ["items"], ["results"] or ["data"]. *)
Definition holds_list (o : option json) : bool :=
  match o with Some (JList _) => true | _ => false end.

Definition recognized_shape (data : json) : bool :=
  match data with
  | JList _ => true
  | JDict kv =>
      holds_list (dict_get "items" kv) || holds_list (dict_get "results" kv)
      || holds_list (dict_get "data" kv)
  | _ => false
  end.

Definition scenario_validator : string -> option string :=
  table_validator [("a@a.com", "a@a.com")].

Definition demo_args_dry : Args :=
  {| args_test := None; args_list := Some "contacts.json";
     args_subject := None; args_from_name := None; args_reply_to := None;
     args_rate := None; args_dry_run := true; args_save_previews := None;
     args_verbose := true |}.

Definition wrapped_contacts : json :=
  JDict [("contacts", JList [JDict recA])].

Definition mixed_object : record :=
  [("items", JStr "none"); ("data", JList [JDict recC]);
   ("results", JList [JDict recA; JInt 7])].

Definition demo_pairs : list (string * record) :=
  [("A@x.com", recA); ("a@X.com", recB); ("b@x.com", recC)].

Definition demo_messages : list EmailMessage :=
  [demo_message "a@x.com"; demo_message "b@x.com"; demo_message "c@x.com"].

(** ** Configuration from the environment *)

Definition RuntimeError (msg : string) : exn := Exn "RuntimeError" msg.

(** The values [Config.from_env] reads as true for [SMTP_USE_SSL]. *)
Definition TRUE_WORDS : gset string := {[ "1"; "true"; "yes"; "on" ]}.

(** [os.getenv(key, default)] on the environment [env]. *)
Definition getenv (env : gmap string string) (key default : string) : string :=
  match env !! key with
  | Some v => v
  | None => default
  end.

Section FromEnv.

(** The built-ins [int(s)] and [float(s)], which raise [ValueError] on a
    string they cannot read, and [str(Path(s))]. *)
Variable int_of_str : string -> result Z.
Variable float_of_str : string -> result Q.
Variable path_str : string -> string.

(** The default of [SUBJECT], a literal with characters outside the range
    of the model. *)
Variable DEFAULT_SUBJECT : string.

(** [Config.from_env], on the environment as [load_dotenv] leaves it and the
    paths that exist, in the order the source evaluates its steps. *)
Definition Config_from_env (env : gmap string string)
    (path_exists : string -> bool) : result Config :=
  let smtp_host := getenv env "SMTP_HOST" "smtp.gmail.com" in
  match int_of_str (getenv env "SMTP_PORT" "465") with
  | Raise e => Raise e
  | Ok smtp_port =>
      let smtp_username := env !! "SMTP_USERNAME" in
      let smtp_password := env !! "SMTP_PASSWORD" in
      let from_name := getenv env "FROM_NAME" (or_str smtp_username "") in
      let subject := getenv env "SUBJECT" DEFAULT_SUBJECT in
      let template_path_str := getenv env "TEMPLATE_PATH" "email-template.html" in
      let reply_to := env !! "REPLY_TO" in
      let rate_per_minute_env := env !! "RATE_PER_MIN" in
      match
        match rate_per_minute_env with
        | Some text =>
            if str_truthy text then
              match float_of_str text with
              | Ok rate => Ok (Some rate)
              | Raise e => Raise e
              end
            else Ok None
        | None => Ok None
        end
      with
      | Raise e => Raise e
      | Ok rate_per_minute =>
          let use_ssl :=
            bool_decide (lower (getenv env "SMTP_USE_SSL" "true") ∈ TRUE_WORDS) in
          if negb (opt_truthy smtp_username) then
            Raise (RuntimeError "Missing SMTP_USERNAME in .env")
          else if negb (opt_truthy smtp_password) then
            Raise (RuntimeError
                     "Missing SMTP_PASSWORD in .env (use your Gmail App Password)")
          else
            let template_path := path_str template_path_str in
            if negb (path_exists template_path) then
              Raise (RuntimeError
                       ("TEMPLATE_PATH points to '" +:+ template_path
                        +:+ "', but the file does not exist."))
            else
              Ok {| smtp_host := smtp_host;
                    smtp_port := smtp_port;
                    smtp_username := default "" smtp_username;
                    smtp_password := default "" smtp_password;
                    from_name := from_name;
                    subject := subject;
                    template_path := template_path;
                    reply_to := reply_to;
                    rate_per_minute := rate_per_minute;
                    use_ssl := use_ssl |}
      end
  end.

End FromEnv.

(** ** Further notions *)

(** Every character of [s] satisfies [p]. *)
Fixpoint all_chars (p : ascii -> bool) (s : string) : bool :=
  match s with
  | EmptyString => true
  | String c s' => p c && all_chars p s'
  end.

Definition first_char (s : string) : option ascii :=
  match s with
  | EmptyString => None
  | String c _ => Some c
  end.

Fixpoint last_char (s : string) : option ascii :=
  match s with
  | EmptyString => None
  | String c s' =>
      match last_char s' with
      | Some d => Some d
      | None => Some c
      end
  end.

(** No white space at either end. *)
Definition trimmed (s : string) : Prop :=
  (∀ c, first_char s = Some c → isspace c = false) ∧
  (∀ c, last_char s = Some c → isspace c = false).

(** The strings a regular expression denotes. *)
Inductive matches : Re.regex -> string -> Prop :=
| matches_eps : matches Re.Eps ""
| matches_class p c : p c = true -> matches (Re.Class p) (String c "")
| matches_cat r1 r2 s1 s2 :
    matches r1 s1 -> matches r2 s2 -> matches (Re.Cat r1 r2) (s1 +:+ s2)
| matches_alt_l r1 r2 s : matches r1 s -> matches (Re.Alt r1 r2) s
| matches_alt_r r1 r2 s : matches r2 s -> matches (Re.Alt r1 r2) s
| matches_star_nil r : matches (Re.Star r) ""
| matches_star_cons r s1 s2 :
    matches r s1 -> matches (Re.Star r) s2 -> matches (Re.Star r) (s1 +:+ s2).

(** [[^@\s]] as a predicate on characters. *)
Definition atom (c : ascii) : bool := negb (Ascii.eqb c "@") && negb (isspace c).

(** A non-empty run of characters that are neither [@] nor white space. *)
Definition word (s : string) : Prop := s ≠ "" ∧ all_chars atom s = true.

(** The messages a trace hands to [send_message], in order. *)
Definition sent_messages (t : list event) : list EmailMessage :=
  omap (fun ev => match ev with SendMessage m => Some m | _ => None end) t.

(** The [[OK] i/total -> to] lines of a trace, in order. *)
Definition ok_lines (t : list event) : list (nat * nat * string) :=
  omap (fun ev =>
          match ev with
          | Print (LOk i total to) => Some (i, total, to)
          | _ => None
          end) t.


Definition is_file_event (ev : event) : bool :=
  match ev with MkDir _ | WriteText _ _ _ => true | _ => false end.



Definition flaky_server (k : nat) : Smtp :=
  {| connect_err := None; ehlo_err := None; starttls_err := None;
     login_err := None;
     send_err := fun j =>
       if (j =? k)%nat then Some (Exn "SMTPRecipientsRefused" "refused")
       else None |}.

Definition demo_env : gmap string string :=
  {[ "SMTP_USERNAME" := "sender@gmail.com"; "SMTP_PASSWORD" := "app-password";
     "SMTP_USE_SSL" := "Yes" ]}.

Definition demo_int (s : string) : result Z :=
  if String.eqb s "465" then Ok 465%Z
  else Raise (ValueError "invalid literal for int() with base 10").

Definition is_dict (x : json) : bool :=
  match x with JDict _ => true | _ => false end.




(** A trace in two phases: first events that do not reach the SMTP server,
    then events that do not touch the file system. *)
Definition phased (t : list event) : Prop :=
  ∃ pre post, t = pre ++ post ∧
    Forall (λ ev, is_transport ev = false) pre ∧
    Forall (λ ev, is_file_event ev = false) post.




Definition two_contacts : list record :=
  [ [("email", JStr "a@x.org")]; [("email", JStr "b@x.org")] ].

(** [RATE_PER_MIN] is unset, empty, or a text [float] reads. *)
Definition rate_readable (float_of_str : string -> result Q)
    (env : gmap string string) : Prop :=
  ∀ text, env !! "RATE_PER_MIN" = Some text → str_truthy text = true →
    ∃ rate, float_of_str text = Ok rate.

Definition missing_template (template_path : string) : exn :=
  RuntimeError ("TEMPLATE_PATH points to '" +:+ template_path
                +:+ "', but the file does not exist.").

Definition demo_float (s : string) : result Q :=
  Raise (ValueError "could not convert string to float").

Definition demo_env_config : Config :=
  {| smtp_host := "smtp.gmail.com"; smtp_port := 465;
     smtp_username := "sender@gmail.com"; smtp_password := "app-password";
     from_name := "sender@gmail.com"; subject := "Hello";
     template_path := "email-template.html"; reply_to := None;
     rate_per_minute := None; use_ssl := true |}.



Definition deaf_server : Smtp :=
  {| connect_err := None; ehlo_err := None;
     starttls_err := None; login_err := Some (Exn "SMTPAuthenticationError" "535");
     send_err := fun _ => None |}.

(** * Properties *)

(** ** De-duplication *)

Section DedupFacts.

Implicit Types (l found : list (string * record)) (seen : gset string).

Lemma keys_nil : keys [] = [].
Proof. done. Qed.

Lemma keys_cons p l : keys (p :: l) = key_of p :: keys l.
Proof. done. Qed.

Lemma foldl_dedup_step seen unique l :
  snd (foldl dedup_step (seen, unique) l) = unique ++ dedup_from seen l.
Proof.
  revert seen unique.
  induction l as [|[email rec] l IH]; intros seen unique; simpl.
  - by rewrite app_nil_r.
  - unfold key_of; simpl. case_bool_decide.
    + apply IH.
    + rewrite IH, <- app_assoc. done.
Qed.

Lemma dedup_dedup_from l : dedup l = dedup_from ∅ l.
Proof. unfold dedup. by rewrite foldl_dedup_step. Qed.

Lemma dedup_from_sublist seen l : sublist (dedup_from seen l) l.
Proof.
  revert seen. induction l as [|p l IH]; intros seen; simpl.
  - constructor.
  - case_bool_decide; [apply sublist_cons | apply sublist_skip]; apply IH.
Qed.

Lemma dedup_from_fresh seen l k :
  k ∈ keys (dedup_from seen l) → k ∉ seen.
Proof.
  revert seen. induction l as [|p l IH]; intros seen; simpl.
  - rewrite keys_nil. by intros Hk%elem_of_nil.
  - case_bool_decide as Hp.
    + apply IH.
    + rewrite keys_cons, elem_of_cons.
      intros [->|Hk]; [done|]. apply IH in Hk. set_solver.
Qed.

Lemma dedup_from_NoDup seen l : NoDup (keys (dedup_from seen l)).
Proof.
  revert seen. induction l as [|p l IH]; intros seen; simpl.
  - constructor.
  - case_bool_decide as Hp; [apply IH|].
    rewrite keys_cons. constructor; [|apply IH].
    intros Hk. apply dedup_from_fresh in Hk. set_solver.
Qed.

Lemma dedup_from_id seen l :
  NoDup (keys l) → (∀ k, k ∈ keys l → k ∉ seen) → dedup_from seen l = l.
Proof.
  revert seen. induction l as [|p l IH]; intros seen Hnd Hfresh; simpl; [done|].
  rewrite keys_cons in Hnd, Hfresh.
  apply NoDup_cons in Hnd as [Hp Hnd].
  rewrite bool_decide_eq_false_2; [|apply Hfresh; left].
  f_equal. apply IH; [done|].
  intros k Hk.
  assert (k ≠ key_of p) by (intros ->; done).
  assert (k ∉ seen) by (apply Hfresh; by right).
  set_solver.
Qed.

Lemma dedup_from_keeps_first seen l1 p l2 :
  key_of p ∉ seen → key_of p ∉ keys l1 →
  p ∈ dedup_from seen (l1 ++ p :: l2).
Proof.
  revert seen. induction l1 as [|q l1 IH]; intros seen Hs Hl; simpl.
  - rewrite bool_decide_eq_false_2 by done. left.
  - rewrite keys_cons, not_elem_of_cons in Hl.
    destruct Hl as [Hne Hl].
    case_bool_decide.
    + by apply IH.
    + right. apply IH; [set_solver | done].
Qed.

Lemma dedup_from_is_first seen l p :
  p ∈ dedup_from seen l →
  ∃ l1 l2, l = l1 ++ p :: l2 ∧ (key_of p ∉ keys l1) ∧ (key_of p ∉ seen).
Proof.
  revert seen. induction l as [|q l IH]; intros seen; simpl.
  - by intros Hp%elem_of_nil.
  - case_bool_decide as Hq.
    + intros Hin. apply IH in Hin as (l1 & l2 & -> & Hl1 & Hs).
      exists (q :: l1), l2. split_and!; [done| |done].
      rewrite keys_cons, not_elem_of_cons.
      split; [|done]. intros Heq. by rewrite Heq in Hs.
    + rewrite elem_of_cons. intros [->|Hin].
      * exists [], l. split_and!; [done| |done].
        rewrite keys_nil. apply not_elem_of_nil.
      * apply IH in Hin as (l1 & l2 & -> & Hl1 & Hs).
        exists (q :: l1), l2. split_and!; [done| |set_solver].
        rewrite keys_cons, not_elem_of_cons.
        split; [set_solver | done].
Qed.

Lemma dedup_from_keys seen l k :
  k ∈ keys l → k ∈ seen ∨ k ∈ keys (dedup_from seen l).
Proof.
  revert seen. induction l as [|q l IH]; intros seen.
  - rewrite keys_nil. by intros Hk%elem_of_nil.
  - rewrite keys_cons, elem_of_cons. simpl. intros [->|Hk].
    + case_bool_decide; [by left|]. right. rewrite keys_cons. left.
    + case_bool_decide.
      * by apply IH.
      * apply (IH ({[ key_of q ]} ∪ seen)) in Hk as [Hk|Hk].
        -- apply elem_of_union in Hk as [Hk|Hk]; [|by left].
           apply elem_of_singleton in Hk as ->.
           right. rewrite keys_cons. left.
        -- right. rewrite keys_cons. by right.
Qed.




Lemma dedup_from_drop_later seen l1 p l2 :
  key_of p ∈ seen ∨ key_of p ∈ keys l1 →
  dedup_from seen (l1 ++ p :: l2) = dedup_from seen (l1 ++ l2).
Proof.
  revert seen. induction l1 as [|q l1 IH]; intros seen Hp; simpl.
  - rewrite keys_nil in Hp. destruct Hp as [Hp|Hp%elem_of_nil]; [|done].
    by rewrite bool_decide_eq_true_2.
  - rewrite keys_cons, elem_of_cons in Hp.
    case_bool_decide as Hq.
    + apply IH. destruct Hp as [Hp|[Hp|Hp]]; [by left| |by right].
      left. by rewrite Hp.
    + f_equal. apply IH. destruct Hp as [Hp|[Hp|Hp]]; [| |by right].
      * left. set_solver.
      * left. rewrite Hp. set_solver.
Qed.

End DedupFacts.

(** C2. De-duplication keeps, for each lower-cased address, its first pair
    and only that one: the output is a subsequence of the input (pairs
    verbatim, relative order kept); its addresses are pairwise distinct after
    lower-casing; a pair whose lower-cased address does not occur before it is
    kept; every kept pair is such a first occurrence; a pair whose lower-cased
    address occurs before it is dropped (removing it from the input changes
    nothing); and no address of the input is lost. *)
Theorem dedup_first_occurrence_wins (found : list (string * record)) :
  sublist (dedup found) found
  ∧ NoDup ((lower ∘ fst) <$> dedup found)
  ∧ (∀ l1 p l2, found = l1 ++ p :: l2 →
       lower (fst p) ∉ (lower ∘ fst) <$> l1 → p ∈ dedup found)
  ∧ (∀ p, p ∈ dedup found →
       ∃ l1 l2, found = l1 ++ p :: l2 ∧ (lower (fst p) ∉ (lower ∘ fst) <$> l1))
  ∧ (∀ l1 p l2, found = l1 ++ p :: l2 →
       lower (fst p) ∈ (lower ∘ fst) <$> l1 → dedup found = dedup (l1 ++ l2))
  ∧ (∀ k, k ∈ (lower ∘ fst) <$> found → k ∈ (lower ∘ fst) <$> dedup found).
Proof.
  change (fmap (lower ∘ fst)) with keys.
  rewrite dedup_dedup_from. split_and!.
  - apply dedup_from_sublist.
  - apply dedup_from_NoDup.
  - intros l1 p l2 -> Hp.
    apply dedup_from_keeps_first; [apply not_elem_of_empty | exact Hp].
  - intros p Hp.
    apply dedup_from_is_first in Hp as (l1 & l2 & -> & Hl1 & _).
    by exists l1, l2.
  - intros l1 p l2 -> Hp. rewrite dedup_dedup_from.
    apply dedup_from_drop_later. by right.
  - intros k Hk. apply (dedup_from_keys ∅) in Hk as [Hk|Hk]; [|done].
    by apply not_elem_of_empty in Hk.
Qed.

(** C8. De-duplicating twice is de-duplicating once. *)
Theorem dedup_idempotent (x : list (string * record)) :
  dedup (dedup x) = dedup x.
Proof.
  rewrite !dedup_dedup_from.
  apply dedup_from_id.
  - apply dedup_from_NoDup.
  - intros k _. apply not_elem_of_empty.
Qed.

(** ** Extraction *)

Section ExtractionFacts.

Variable validate_email : string -> option string.

Local Abbreviation addr := (address_of validate_email).
Local Abbreviation pair_of := (addressed validate_email).

Lemma foldl_extract_step found missing (records : list record) :
  foldl (extract_step validate_email) (found, missing) records =
  (found ++ omap pair_of records,
   missing ++ filter (λ r, ¬ is_Some (addr r)) records).
Proof.
  revert found missing.
  induction records as [|rec records IH]; intros found missing.
  - simpl. by rewrite !app_nil_r.
  - rewrite filter_cons.
    change (omap pair_of (rec :: records)) with
      (match pair_of rec with
       | Some y => y :: omap pair_of records
       | None => omap pair_of records
       end).
    change (foldl (extract_step validate_email) (found, missing) (rec :: records))
      with (foldl (extract_step validate_email)
              (extract_step validate_email (found, missing) rec) records).
    unfold extract_step at 2, addressed.
    destruct (addr rec) as [email|] eqn:Haddr;
      destruct (decide _) as [Hd|Hd]; rewrite IH; simpl.
    + exfalso. apply Hd. eauto.
    + by rewrite <- app_assoc.
    + by rewrite <- app_assoc.
    + exfalso. apply Hd. by intros [? ?].
Qed.

Lemma collect_eq (records : list record) :
  collect validate_email records =
  (omap pair_of records, filter (λ r, ¬ is_Some (addr r)) records).
Proof. unfold collect. by rewrite foldl_extract_step. Qed.

Lemma extract_emails_eq (records : list record) :
  extract_emails validate_email records = (dedup (fst (collect validate_email records)), snd (collect validate_email records)).
Proof. unfold extract_emails. by destruct (collect validate_email records). Qed.

Lemma omap_addressed_snd (records : list record) :
  snd <$> omap pair_of records = filter (λ r, is_Some (addr r)) records.
Proof.
  induction records as [|rec records IH]; [done|].
  rewrite filter_cons.
  change (omap pair_of (rec :: records)) with
    (match pair_of rec with
     | Some y => y :: omap pair_of records
     | None => omap pair_of records
     end).
  unfold addressed.
  destruct (addr rec) as [email|] eqn:Haddr;
    destruct (decide _) as [Hd|Hd]; simpl.
  - f_equal. exact IH.
  - exfalso. apply Hd. eauto.
  - by destruct Hd.
  - exact IH.
Qed.

Lemma find_email_truthy rec email_val :
  find_email rec = Some email_val → str_truthy email_val = true.
Proof.
  induction rec as [|[k v] rec IH]; simpl; [done|].
  destruct v; try exact IH.
  destruct (bool_decide _ && str_truthy (strip s)) eqn:Hc; [|exact IH].
  intros [= <-]. by apply andb_prop in Hc as [_ ?].
Qed.

Lemma address_of_find rec email_val :
  find_email rec = Some email_val →
  addr rec = clean_email validate_email email_val.
Proof.
  intros H. unfold address_of.
  by rewrite H, (find_email_truthy _ _ H).
Qed.


End ExtractionFacts.

(** ** Computations *)

Section IoFacts.

Context {A B : Type}.
Implicit Types (m : io A) (f : A → io B).

Lemma bind_ok t a f : (t, Ok a) ≫= f = (t ++ trace (f a), outcome (f a)).
Proof. unfold mbind, io_bind. by destruct (f a). Qed.

Lemma bind_raise t e f : (t, Raise e) ≫= f = (t, Raise e).
Proof. done. Qed.

Lemma trace_bind m f :
  trace (m ≫= f) =
  match outcome m with
  | Ok a => trace m ++ trace (f a)
  | Raise _ => trace m
  end.
Proof. destruct m as [t [a|e]]; [by rewrite bind_ok | done]. Qed.


Lemma bind_lift_ok a f : lift (Ok a) ≫= f = f a.
Proof. unfold lift. rewrite bind_ok. by destruct (f a). Qed.

Lemma bind_lift_raise e f : lift (Raise e) ≫= f = ([], Raise e).
Proof. done. Qed.

(** A property of single events that holds along [m] and along every
    continuation holds along the whole computation. *)
Lemma Forall_trace_bind (P : event → Prop) m f :
  Forall P (trace m) → (∀ a, Forall P (trace (f a))) →
  Forall P (trace (m ≫= f)).
Proof.
  intros Hm Hf. rewrite trace_bind.
  destruct (outcome m); [apply Forall_app; split; [done | apply Hf] | done].
Qed.

End IoFacts.

Lemma trace_with_quit {A} (m : io A) : trace (with_quit m) = trace m ++ [Quit].
Proof. by destruct m. Qed.


Lemma bind_call_ok {B} ev (k : unit → io B) :
  call ev None ≫= k = (ev :: trace (k tt), outcome (k tt)).
Proof. unfold call. by rewrite bind_ok. Qed.



Lemma Forall_trace_call (P : event → Prop) ev err :
  P ev → Forall P (trace (call ev err)).
Proof. intros. by constructor. Qed.

Lemma Forall_trace_emit (P : event → Prop) ev : P ev → Forall P (trace (emit ev)).
Proof. intros. by constructor. Qed.

Lemma Forall_trace_mret {A} (P : event → Prop) (a : A) :
  Forall P (trace (mret a : io A)).
Proof. constructor. Qed.

Lemma Forall_trace_lift {A} (P : event → Prop) (r : result A) :
  Forall P (trace (lift r)).
Proof. constructor. Qed.

Lemma Forall_trace_with_quit {A} (P : event → Prop) (m : io A) :
  Forall P (trace m) → P Quit → Forall P (trace (with_quit m)).
Proof.
  intros Hm Hq. rewrite trace_with_quit. apply Forall_app. split; [done|].
  by constructor.
Qed.

Lemma Forall_trace_try_except {A} (P : event → Prop) (m : io A) handler :
  Forall P (trace m) → (∀ e, Forall P (trace (handler e))) →
  Forall P (trace (try_except m handler)).
Proof.
  intros Hm Hh. destruct m as [t [a|e]]; [done|].
  unfold try_except. specialize (Hh e). destruct (handler e) as [t' r].
  apply Forall_app. by split.
Qed.

(** Splits a goal [Forall P (trace m)] along the structure of [m]. *)
Ltac trace_forall :=
  repeat first
    [ apply Forall_trace_mret
    | apply Forall_trace_lift
    | apply Forall_trace_emit
    | apply Forall_trace_call
    | apply Forall_trace_with_quit
    | apply Forall_trace_try_except; [|intros ?]
    | apply Forall_trace_bind; [|intros ?] ].

(** ** Dispatch *)

Section DispatchFacts.

Local Open Scope Q_scope.











Lemma send_loop_cons server delay total i msg rest :
  send_loop server delay total i (msg :: rest) =
  (call (SendMessage msg) (send_err server i) ;;
   emit (Print (LOk i total (msg_to msg))) ;;
   (if float_truthy delay && (i <? total)%nat
    then emit (Sleep delay) else mret tt) ;;
   send_loop server delay total (S i) rest).
Proof. done. Qed.






End DispatchFacts.



(** ** The driver *)

Section DriverFacts.

Variable validate_email : string -> option string.
Variable jinja_render : string -> record -> result string.
Variable html2text : string -> string.

Local Abbreviation no_transport := (λ ev : event, is_transport ev = false).

Lemma save_preview_no_transport args file html :
  Forall no_transport (trace (save_preview args file html)).
Proof.
  unfold save_preview.
  destruct (args_save_previews args) as [outdir|]; [|by trace_forall].
  destruct (str_truthy outdir); by trace_forall.
Qed.


Lemma render_pairs_cons cfg args from subj reply email rec rest :
  render_pairs jinja_render html2text cfg args from subj reply
    ((email, rec) :: rest) =
  (html ← render_template jinja_render (template_path cfg) rec;
   save_preview args
     ("preview_" +:+ sub_unsafe false email +:+ ".html") html ;;
   msgs ← render_pairs jinja_render html2text cfg args from subj reply rest;
   mret (make_message html2text from (smtp_username cfg) email subj html reply
         :: msgs)).
Proof. done. Qed.

Lemma render_pairs_no_transport cfg args from subj reply pairs :
  Forall no_transport
    (trace (render_pairs jinja_render html2text cfg args from subj reply pairs)).
Proof.
  induction pairs as [|[email rec] pairs IH]; [constructor|].
  rewrite render_pairs_cons. unfold render_template.
  trace_forall; try done. apply save_preview_no_transport.
Qed.


Local Abbreviation run_main := (main validate_email jinja_render html2text).

(** [main] on the [--list] branch, once the file is loaded. *)
Lemma main_list_run w args cfg path data :
  list_run w args cfg path data →
  run_main w args =
  (records ← lift (load_json_records data);
   let '(pairs, missing) := extract_emails validate_email records in
   (if args_verbose args
    then emit (Print (LInfo (length records) (length pairs) (length missing)))
    else mret tt) ;;
   messages ← render_pairs jinja_render html2text cfg args
                (or_str (args_from_name args) (from_name cfg))
                (or_str (args_subject args) (subject cfg))
                (or_opt (args_reply_to args) (reply_to cfg)) pairs;
   emit (Print (LSummary (length records) (length pairs) (length missing))) ;;
   send_and_exit w cfg args messages).
Proof.
  intros (Henv & Htest & Hlist & Hpath & Hexists & Hload).
  unfold main, list_branch. rewrite Henv, Htest, Hlist.
  cbn [opt_truthy default from_option id]. rewrite Hpath, Hexists. cbn [negb].
  rewrite Hload. by rewrite bind_lift_ok.
Qed.

Lemma load_json_records_unrecognized data :
  recognized_shape data = false →
  load_json_records data = Raise (ValueError unsupported_shape).
Proof.
  destruct data as [| | | | |xs|kv]; try done.
  unfold recognized_shape, load_json_records, first_list, holds_list.
  destruct (dict_get "items" kv) as [[]|]; try done;
    destruct (dict_get "results" kv) as [[]|]; try done;
    destruct (dict_get "data" kv) as [[]|]; done.
Qed.

(** An unsupported shape leaves [main] as the bare [ValueError]: nothing is
    printed, no exit code is returned. *)
Lemma main_unrecognized_shape w args cfg path data :
  list_run w args cfg path data → recognized_shape data = false →
  run_main w args = ([], Raise (ValueError unsupported_shape)).
Proof.
  intros Hrun Hshape.
  by rewrite (main_list_run _ _ _ _ _ Hrun), load_json_records_unrecognized.
Qed.

Lemma send_and_exit_dry_run w cfg args messages :
  args_dry_run args = true →
  Forall no_transport (trace (send_and_exit w cfg args messages)).
Proof.
  intros Hdry. unfold send_and_exit, send_messages. rewrite Hdry.
  by trace_forall.
Qed.

Lemma main_dry_run_no_transport w args :
  args_dry_run args = true → Forall no_transport (trace (run_main w args)).
Proof.
  intros Hdry.
  pose proof (λ cfg msgs, send_and_exit_dry_run w cfg args msgs Hdry) as Hsend.
  unfold main.
  destruct (from_env w) as [cfg|e]; [|by trace_forall].
  destruct (opt_truthy (args_test args)).
  - unfold test_branch, render_template.
    apply Forall_trace_bind; [by trace_forall | intros html].
    apply Forall_trace_bind; [apply save_preview_no_transport | intros _].
    apply Hsend.
  - destruct (opt_truthy (args_list args)); [|by trace_forall].
    unfold list_branch. destruct (negb _); [by trace_forall|].
    apply Forall_trace_bind; [by trace_forall | intros data].
    apply Forall_trace_bind; [by trace_forall | intros records].
    destruct (extract_emails validate_email records) as [pairs missing].
    apply Forall_trace_bind;
      [destruct (args_verbose args); by trace_forall | intros _].
    apply Forall_trace_bind; [apply render_pairs_no_transport | intros msgs].
    apply Forall_trace_bind; [by trace_forall | intros _].
    apply Hsend.
Qed.



(** C5, as the code has it. On the [--list] branch, a file whose JSON is
    neither a list nor an object with a list under ["items"], ["results"] or
    ["data"] makes [main] raise the [ValueError] of [load_json_records]
    uncaught: nothing is printed, no exit code is returned, and the process
    ends with status 1, not 2. Nothing has been dispatched. *)
Theorem unsupported_shape_escapes_main w args cfg path data :
  list_run w args cfg path data →
  recognized_shape data = false →
  run_main w args = ([], Raise (ValueError unsupported_shape))
  ∧ exit_status (outcome (run_main w args)) = 1%Z.
Proof.
  intros Hrun Hshape.
  by rewrite (main_unrecognized_shape _ _ _ _ _ Hrun Hshape).
Qed.

(** C6, amended. In dry-run mode a dispatch makes no call to the SMTP
    server: all it does is print one line that carries the number of
    messages, and it returns [None], whatever the server, the configuration
    and the rate. A whole run of [main] with [--dry-run] makes no call to the
    server either. *)
Theorem dry_run_no_transport w args server config messages rate_arg :
  send_messages server config messages true rate_arg =
    ([Print (LDryRun (length messages))], Ok tt)
  ∧ Forall (λ ev, is_transport ev = false)
      (trace (send_messages server config messages true rate_arg))
  ∧ (args_dry_run args = true →
     Forall (λ ev, is_transport ev = false) (trace (run_main w args))).
Proof.
  split_and!; [done | by repeat constructor |].
  apply main_dry_run_no_transport.
Qed.

End DriverFacts.

(** ** Loading *)

(** C9. For a top-level object, the records are the objects of the list under
    ["items"] when that is a list, else of the list under ["results"], else of
    the list under ["data"], whatever the other keys hold and in whatever
    order the object has them; a key that is absent or holds something that
    is not a list is passed over; with no list under any of the three,
    loading raises. *)
Theorem load_json_records_priority (kv : record) :
  (∀ val, dict_get "items" kv = Some (JList val) →
     load_json_records (JDict kv) = Ok (dicts_only val))
  ∧ (∀ val, holds_list (dict_get "items" kv) = false →
       dict_get "results" kv = Some (JList val) →
       load_json_records (JDict kv) = Ok (dicts_only val))
  ∧ (∀ val, holds_list (dict_get "items" kv) = false →
       holds_list (dict_get "results" kv) = false →
       dict_get "data" kv = Some (JList val) →
       load_json_records (JDict kv) = Ok (dicts_only val))
  ∧ (holds_list (dict_get "items" kv) = false →
     holds_list (dict_get "results" kv) = false →
     holds_list (dict_get "data" kv) = false →
     load_json_records (JDict kv) = Raise (ValueError unsupported_shape)).
Proof.
  unfold load_json_records, first_list, holds_list.
  split_and!.
  - by intros val ->.
  - intros val Hitems ->. by destruct (dict_get "items" kv) as [[]|].
  - intros val Hitems Hresults ->.
    destruct (dict_get "items" kv) as [[]|]; try done;
      by destruct (dict_get "results" kv) as [[]|].
  - intros Hitems Hresults Hdata.
    destruct (dict_get "items" kv) as [[]|]; try done;
      destruct (dict_get "results" kv) as [[]|]; try done;
      by destruct (dict_get "data" kv) as [[]|].
Qed.

Lemma load_json_records_priority_witness :
  load_json_records (JDict mixed_object) = Ok [recA].
Proof.
  destruct (load_json_records_priority mixed_object) as (_ & Hresults & _).
  apply (Hresults [JDict recA; JInt 7]); reflexivity.
Defined.

(** ** Extraction, end to end *)








(** ** Concrete runs *)

Lemma dedup_first_occurrence_wins_witness :
  ("A@x.com", recA) ∈ dedup demo_pairs
  ∧ dedup demo_pairs = dedup [("A@x.com", recA); ("b@x.com", recC)].
Proof.
  destruct (dedup_first_occurrence_wins demo_pairs)
    as (_ & _ & Hfirst & _ & Hlater & _).
  split.
  - apply (Hfirst [] ("A@x.com", recA) [("a@X.com", recB); ("b@x.com", recC)]).
    + reflexivity.
    + apply not_elem_of_nil.
  - apply (Hlater [("A@x.com", recA)] ("a@X.com", recB) [("b@x.com", recC)]).
    + reflexivity.
    + vm_compute. left.
Defined.




Lemma demo_list_run data :
  list_run (demo_world data) demo_args demo_config "contacts.json" data.
Proof. by repeat split. Defined.


Lemma unsupported_shape_escapes_main_witness :
  let run := main scenario_validator (const_render "<p>Hi</p>") id
               (demo_world wrapped_contacts) demo_args in
  run = ([], Raise (ValueError unsupported_shape))
  ∧ exit_status (outcome run) = 1%Z.
Proof.
  apply (unsupported_shape_escapes_main scenario_validator
           (const_render "<p>Hi</p>") id _ _ demo_config "contacts.json"
           wrapped_contacts).
  - apply demo_list_run.
  - reflexivity.
Defined.

Lemma dry_run_no_transport_witness :
  Forall (λ ev, is_transport ev = false)
    (trace (main scenario_validator (const_render "<p>Hi</p>") id
              (demo_world (JList (JDict <$> scenario))) demo_args_dry)).
Proof.
  destruct (dry_run_no_transport scenario_validator (const_render "<p>Hi</p>")
              id (demo_world (JList (JDict <$> scenario))) demo_args_dry
              reliable_server demo_config demo_messages None)
    as (_ & _ & Hmain).
  apply Hmain. reflexivity.
Defined.

(** What a dry-run dispatch returns is the same for every message list, so
    the report of the specification, with one [Skipped] outcome per message,
    is not what it returns, nor anything computed from it. *)
Lemma dry_run_returns_no_report :
  ¬ ∃ decode : result unit → DispatchReport,
      ∀ messages, messages ≠ [] →
        decode (outcome (send_messages reliable_server demo_config messages
                           true None))
        = spec_dry_run_report messages.
Proof.
  intros (decode & Hdecode).
  pose proof (Hdecode [demo_message "a@x.com"]) as H1.
  pose proof (Hdecode demo_messages) as H3.
  simpl in H1, H3. rewrite H1 in H3 by done.
  specialize (H3 ltac:(done)). discriminate H3.
Qed.

(** * Further properties of the code *)

(** ** Strings *)

Lemma lstrip_first s c : first_char (lstrip s) = Some c → isspace c = false.
Proof.
  induction s as [|a s IH]; simpl; [done|].
  destruct (isspace a) eqn:Ha; [exact IH|].
  simpl. by intros [= <-].
Qed.

Lemma rstrip_first s c : first_char (rstrip s) = Some c → first_char s = Some c.
Proof.
  destruct s as [|a s]; simpl; [done|].
  destruct (rstrip s); [|done].
  by destruct (isspace a).
Qed.

Lemma rstrip_last s c : last_char (rstrip s) = Some c → isspace c = false.
Proof.
  induction s as [|a s IH]; simpl; [done|].
  destruct (rstrip s) as [|b t] eqn:Ht.
  - destruct (isspace a) eqn:Ha; simpl; [done|]. by intros [= <-].
  - change (last_char (String a (String b t)))
      with (match last_char (String b t) with
            | Some d => Some d | None => Some a end).
    destruct (last_char (String b t)) as [d|] eqn:Hd;
      [|simpl in Hd; by destruct (last_char t)].
    intros [= <-]. by apply IH.
Qed.

Lemma strip_trimmed s : trimmed (strip s).
Proof.
  split; intros c Hc.
  - apply (lstrip_first s). by apply rstrip_first.
  - by apply (rstrip_last (lstrip s)).
Qed.

Lemma lstrip_id s :
  (∀ c, first_char s = Some c → isspace c = false) → lstrip s = s.
Proof.
  destruct s as [|a s]; [done|]. intros H. simpl.
  by rewrite (H a eq_refl).
Qed.

Lemma rstrip_id s :
  (∀ c, last_char s = Some c → isspace c = false) → rstrip s = s.
Proof.
  induction s as [|a s IH]; [done|]. intros H. simpl in *.
  destruct (last_char s) as [d|] eqn:Hd.
  - rewrite IH by done. destruct s; [done|done].
  - destruct s as [|b s]; [|by simpl in Hd; destruct (last_char s)].
    simpl. by rewrite (H a eq_refl).
Qed.

Lemma strip_id s : trimmed s → strip s = s.
Proof.
  intros [Hfirst Hlast]. unfold strip.
  by rewrite (lstrip_id _ Hfirst), (rstrip_id _ Hlast).
Qed.

(** ** The address candidate of a record *)

(** X1. The candidate [extract_emails] takes from a record is the stripped
    value of one of its fields whose lower-cased name is an alias and whose
    value is a string; it is never empty, has no white space at either end,
    and stripping it again changes nothing. *)
Theorem find_email_candidate (rec : record) (email_val : string) :
  find_email rec = Some email_val →
  email_val ≠ "" ∧ trimmed email_val ∧ strip email_val = email_val ∧
  ∃ k raw, (k, JStr raw) ∈ rec ∧ lower k ∈ EMAIL_KEY_ALIASES ∧
           email_val = strip raw.
Proof.
  induction rec as [|[k v] rec IH]; simpl; [done|].
  assert (find_email rec = Some email_val →
          email_val ≠ "" ∧ trimmed email_val ∧ strip email_val = email_val ∧
          ∃ k' raw, (k', JStr raw) ∈ (k, v) :: rec ∧
                    lower k' ∈ EMAIL_KEY_ALIASES ∧ email_val = strip raw) as IH'.
  { intros H. destruct (IH H) as (Hne & Htrim & Hid & k' & raw & Hin & Hk & He).
    split_and!; [done..|]. exists k', raw. split_and!; [by right | done..]. }
  destruct v as [| | | |s| |]; try exact IH'.
  destruct (bool_decide (lower k ∈ EMAIL_KEY_ALIASES)) eqn:Hk; [|exact IH'].
  destruct (str_truthy (strip s)) eqn:Hs; [|exact IH'].
  simpl. intros [= <-]. split_and!.
  - intros Hempty. by rewrite Hempty in Hs.
  - apply strip_trimmed.
  - apply strip_id, strip_trimmed.
  - exists k, s. split_and!; [left | by apply bool_decide_eq_true in Hk | done].
Qed.

Lemma find_email_candidate_witness :
  "a@a.com" ≠ "" ∧ trimmed "a@a.com" ∧ strip "a@a.com" = "a@a.com" ∧
  ∃ k raw, (k, JStr raw) ∈ recA ∧ lower k ∈ EMAIL_KEY_ALIASES ∧
           "a@a.com" = strip raw.
Proof. apply (find_email_candidate recA "a@a.com"). reflexivity. Defined.


(** X3. Of a field name only one thing matters: whether its lower-cased
    form is an alias. Two records whose fields agree in order and in value,
    and whose names are aliases at the same places, have the same candidate,
    so ["E-Mail"], ["EMAIL"] and ["mail"] are interchangeable. *)
Theorem find_email_case_insensitive (rec rec' : record) :
  Forall2 (λ a b, (lower (fst a) ∈ EMAIL_KEY_ALIASES ↔
                   lower (fst b) ∈ EMAIL_KEY_ALIASES) ∧ snd a = snd b)
    rec rec' →
  find_email rec = find_email rec'.
Proof.
  induction 1 as [|[k v] [k' v'] rec rec' [Hk Hv] _ IH]; [done|].
  simpl in Hk, Hv. subst v'. simpl.
  by rewrite (bool_decide_ext _ _ Hk), IH.
Qed.

Lemma find_email_case_insensitive_witness :
  find_email [("E-Mail", JStr "x@y.com")] = find_email [("email", JStr "x@y.com")].
Proof.
  apply find_email_case_insensitive.
  constructor; [|constructor].
  split; [|reflexivity].
  split; intros _; by vm_compute.
Defined.

(** ** Preview file names *)

Lemma sub_unsafe_all_safe in_run s : all_chars is_safe (sub_unsafe in_run s) = true.
Proof.
  revert in_run. induction s as [|c s IH]; intros in_run; simpl; [done|].
  destruct (is_safe c) eqn:Hc.
  - simpl. by rewrite Hc, IH.
  - destruct in_run; [apply IH|]. simpl. apply IH.
Qed.

Lemma sub_unsafe_fixes_safe in_run s :
  all_chars is_safe s = true → sub_unsafe in_run s = s.
Proof.
  revert in_run. induction s as [|c s IH]; intros in_run; simpl; [done|].
  intros [Hc Hs]%andb_prop. rewrite Hc. by rewrite IH.
Qed.

Lemma sub_unsafe_length in_run s :
  (String.length (sub_unsafe in_run s) ≤ String.length s)%nat.
Proof.
  revert in_run. induction s as [|c s IH]; intros in_run; simpl; [done|].
  destruct (is_safe c); simpl.
  - specialize (IH false). lia.
  - destruct in_run; simpl; [specialize (IH true) | specialize (IH true)]; lia.
Qed.

(** X4. The sanitizer of preview file names, [re.sub] with
    [[^A-Za-z0-9_.+-]+], leaves only letters, digits and [_ . + -], so the
    result holds no path separator; it changes nothing in a string that is
    already safe, is idempotent, and never makes the string longer. *)
Theorem sub_unsafe_sanitizes (s : string) :
  all_chars is_safe (sub_unsafe false s) = true
  ∧ (all_chars is_safe s = true → sub_unsafe false s = s)
  ∧ sub_unsafe false (sub_unsafe false s) = sub_unsafe false s
  ∧ (String.length (sub_unsafe false s) ≤ String.length s)%nat
  ∧ all_chars (λ c, negb (Ascii.eqb c "/")) (sub_unsafe false s) = true.
Proof.
  split_and!.
  - apply sub_unsafe_all_safe.
  - apply sub_unsafe_fixes_safe.
  - apply sub_unsafe_fixes_safe, sub_unsafe_all_safe.
  - apply sub_unsafe_length.
  - pose proof (sub_unsafe_all_safe false s) as H.
    induction (sub_unsafe false s) as [|c t IH]; [done|].
    simpl in *. apply andb_prop in H as [Hc Ht]. rewrite IH by done.
    rewrite andb_true_r. apply negb_true_iff.
    destruct (Ascii.eqb_spec c "/") as [->|]; [discriminate Hc | done].
Qed.

Lemma sub_unsafe_sanitizes_witness :
  sub_unsafe false "a.b+c@x-y.org" = "a.b+c_x-y.org"
  ∧ sub_unsafe false "a.b+c_x-y.org" = "a.b+c_x-y.org".
Proof.
  split; [reflexivity|].
  apply (proj1 (proj2 (sub_unsafe_sanitizes "a.b+c_x-y.org"))). reflexivity.
Defined.

(** ** Loading, further *)

Lemma dicts_only_filter (xs : list json) :
  JDict <$> dicts_only xs = filter (λ x, is_dict x) xs.
Proof.
  induction xs as [|x xs IH]; [done|].
  rewrite filter_cons. unfold dicts_only in *.
  destruct x; simpl; try exact IH.
  by rewrite <- IH.
Qed.

Lemma dicts_only_dicts (records : list record) :
  dicts_only (JDict <$> records) = records.
Proof.
  induction records as [|r records IH]; [done|].
  unfold dicts_only in *. simpl. f_equal. exact IH.
Qed.

(** X5. From a top-level list, loading returns exactly the elements that
    are objects, in their order, and drops every other element without an
    error; a list of objects is returned whole; and a list under ["items"],
    ["results"] or ["data"] of an object that has no other of these keys
    loads as the bare list does. *)
Theorem load_json_records_list (xs : list json) (records : list record) :
  (∃ rs, load_json_records (JList xs) = Ok rs ∧
         JDict <$> rs = filter (λ x, is_dict x) xs)
  ∧ load_json_records (JList (JDict <$> records)) = Ok records
  ∧ (∀ key, key ∈ ["items"; "results"; "data"] →
       load_json_records (JDict [(key, JList xs)]) = load_json_records (JList xs)).
Proof.
  split_and!.
  - exists (dicts_only xs). split; [done | apply dicts_only_filter].
  - simpl. by rewrite dicts_only_dicts.
  - intros key Hkey.
    repeat (apply elem_of_cons in Hkey as [->|Hkey]; [done|]).
    by apply elem_of_nil in Hkey.
Qed.

Lemma load_json_records_list_witness :
  load_json_records (JDict [("results", JList [JDict recA; JInt 7])])
  = load_json_records (JList [JDict recA; JInt 7]).
Proof.
  apply (proj2 (proj2 (load_json_records_list [JDict recA; JInt 7] []))).
  right. left.
Defined.

(** X6. Loading succeeds exactly on the recognized shapes: a list, or an
    object with a list under ["items"], ["results"] or ["data"]. On every
    other value, among them a string, a number, [null] and an object whose
    keys differ in case, it raises the one [ValueError]. *)
Theorem load_json_records_total (data : json) :
  (recognized_shape data = true ↔ ∃ records, load_json_records data = Ok records)
  ∧ (recognized_shape data = false ↔
     load_json_records data = Raise (ValueError unsupported_shape)).
Proof.
  assert (recognized_shape data = true → ∃ records, load_json_records data = Ok records)
    as Hyes.
  { destruct data as [| | | | |xs|kv]; try done.
    - intros _. by exists (dicts_only xs).
    - unfold recognized_shape, load_json_records, first_list, holds_list.
      destruct (dict_get "items" kv) as [[]|];
        destruct (dict_get "results" kv) as [[]|];
        destruct (dict_get "data" kv) as [[]|];
        intros H; try discriminate H; by eexists. }
  pose proof (load_json_records_unrecognized data) as Hno.
  split; split.
  - exact Hyes.
  - intros [records Hok]. destruct (recognized_shape data); [done|].
    rewrite Hno in Hok; done.
  - exact Hno.
  - intros Hraise. destruct (recognized_shape data); [|done].
    destruct (Hyes eq_refl) as [records Hok]. by rewrite Hok in Hraise.
Qed.

Lemma load_json_records_total_witness :
  load_json_records (JDict [("Items", JList [JDict recA])])
  = Raise (ValueError unsupported_shape).
Proof.
  apply (proj1 (proj2 (load_json_records_total
                         (JDict [("Items", JList [JDict recA])])))).
  reflexivity.
Defined.

(** ** What the regular expression accepts *)

Section RegexFacts.

Import Re.

Lemma app_nil_str (s : string) : "" +:+ s = s.
Proof. done. Qed.

Lemma app_cons_str c (s1 s2 : string) :
  String c s1 +:+ s2 = String c (s1 +:+ s2).
Proof. done. Qed.

Lemma app_empty_inv (s1 s2 : string) : s1 +:+ s2 = "" → s1 = "" ∧ s2 = "".
Proof. by destruct s1. Qed.

Lemma app_empty_r (s : string) : s +:+ "" = s.
Proof.
  induction s as [|c s IH]; [done|]. by rewrite app_cons_str, IH.
Qed.

Lemma app_assoc_str (s1 s2 s3 : string) :
  (s1 +:+ s2) +:+ s3 = s1 +:+ (s2 +:+ s3).
Proof.
  induction s1 as [|c s1 IH]; [done|]. by rewrite !app_cons_str, IH.
Qed.

Lemma nullable_matches r : nullable r = true ↔ matches r "".
Proof.
  split.
  - induction r as [| |p|r1 IH1 r2 IH2|r1 IH1 r2 IH2|r IH]; simpl; try done.
    + intros _. constructor.
    + intros [H1 H2]%andb_prop.
      apply (matches_cat r1 r2 "" ""); auto.
    + intros [H|H]%orb_prop; [apply matches_alt_l | apply matches_alt_r]; auto.
    + intros _. constructor.
  - intros H. remember "" as s eqn:Hs.
    induction H as [|p c Hp|r1 r2 s1 s2 _ IH1 _ IH2|r1 r2 s _ IH|r1 r2 s _ IH
                   |r|r s1 s2 _ _ _ _]; simpl; try done.
    + apply app_empty_inv in Hs as [-> ->]. by rewrite IH1, IH2.
    + by rewrite IH.
    + rewrite IH by done. apply orb_true_r.
Qed.

Lemma matches_star_step r c s :
  matches (Star r) (String c s) →
  ∃ s1 s2, s = s1 +:+ s2 ∧ matches r (String c s1) ∧ matches (Star r) s2.
Proof.
  intros H. remember (Star r) as r' eqn:Hr. remember (String c s) as s' eqn:Hs.
  revert Hr Hs.
  induction H as [| | | | |r0|r0 s1 s2 H1 _ H2 IH2]; try done.
  intros [= ->] Hs.
  destruct s1 as [|c1 s1]; [by apply IH2|].
  rewrite app_cons_str in Hs. injection Hs as -> <-. by exists s1, s2.
Qed.

Lemma deriv_matches r c s : matches (deriv c r) s ↔ matches r (String c s).
Proof.
  revert s.
  induction r as [| |p|r1 IH1 r2 IH2|r1 IH1 r2 IH2|r IH]; intros s; simpl.
  - split; inversion 1.
  - split; inversion 1.
  - destruct (p c) eqn:Hp; split; inversion 1; subst.
    + by constructor.
    + constructor.
    + congruence.
  - assert (matches (Cat (deriv c r1) r2) s → matches (Cat r1 r2) (String c s))
      as Hleft.
    { inversion 1 as [| |? ? s1 s2 H1 H2| | | |]; subst.
      apply IH1 in H1. apply (matches_cat r1 r2 (String c s1) s2 H1 H2). }
    assert (matches (Cat r1 r2) (String c s) →
            matches (Cat (deriv c r1) r2) s ∨
            (nullable r1 = true ∧ matches (deriv c r2) s)) as Hright.
    { inversion 1 as [| |? ? s1 s2 H1 H2 [E1 E2] Hs| | | |]; subst.
      destruct s1 as [|c1 s1].
      - right. split; [by apply nullable_matches|].
        rewrite app_nil_str in Hs. subst s2. by apply IH2.
      - left. rewrite app_cons_str in Hs. injection Hs as -> <-.
        apply matches_cat; [by apply IH1 | done]. }
    destruct (nullable r1) eqn:Hn; split.
    + inversion 1; subst; [by apply Hleft|].
      apply (matches_cat r1 r2 "" (String c s));
        [by apply nullable_matches | by apply IH2].
    + intros [H|[_ H]]%Hright; [by apply matches_alt_l | by apply matches_alt_r].
    + apply Hleft.
    + intros [H|[? _]]%Hright; [done | done].
  - split.
    + inversion 1; subst;
        [apply matches_alt_l; by apply IH1 | apply matches_alt_r; by apply IH2].
    + inversion 1; subst;
        [apply matches_alt_l; by apply IH1 | apply matches_alt_r; by apply IH2].
  - split.
    + inversion 1 as [| |? ? s1 s2 H1 H2| | | |]; subst.
      apply IH in H1. apply (matches_star_cons r (String c s1) s2 H1 H2).
    + intros (s1 & s2 & -> & H1 & H2)%matches_star_step.
      apply matches_cat; [by apply IH | done].
Qed.

Lemma fullmatch_matches r s : fullmatch r s = true ↔ matches r s.
Proof.
  revert r. induction s as [|c s IH]; intros r; simpl.
  - apply nullable_matches.
  - rewrite IH. apply deriv_matches.
Qed.

Lemma matches_cat_iff r1 r2 s :
  matches (Cat r1 r2) s ↔
  ∃ s1 s2, s = s1 +:+ s2 ∧ matches r1 s1 ∧ matches r2 s2.
Proof.
  split.
  - inversion 1; subst. eauto.
  - intros (s1 & s2 & -> & H1 & H2). by constructor.
Qed.

Lemma matches_class_iff p s :
  matches (Class p) s ↔ ∃ c, s = String c "" ∧ p c = true.
Proof.
  split.
  - inversion 1; subst. eauto.
  - intros (c & -> & Hc). by constructor.
Qed.

Lemma matches_chr_iff c s : matches (chr c) s ↔ s = String c "".
Proof.
  unfold chr. rewrite matches_class_iff. split.
  - intros (c' & -> & Hc). by apply Ascii.eqb_eq in Hc as ->.
  - intros ->. exists c. split; [done | apply Ascii.eqb_refl].
Qed.

Lemma matches_star_class p s :
  matches (Star (Class p)) s ↔ all_chars p s = true.
Proof.
  split.
  - revert s. induction s as [|c s IH]; [done|].
    intros (s1 & s2 & -> & H1 & H2)%matches_star_step.
    apply matches_class_iff in H1 as (c' & [= <- ->] & Hc).
    simpl. rewrite Hc. apply IH. by rewrite app_nil_str.
  - induction s as [|c s IH]; simpl; [constructor|].
    intros [Hc Hs]%andb_prop.
    apply (matches_star_cons (Class p) (String c "") s);
      [by constructor | by apply IH].
Qed.

Lemma matches_plus_class p s :
  matches (plus (Class p)) s ↔ s ≠ "" ∧ all_chars p s = true.
Proof.
  unfold plus. rewrite matches_cat_iff. split.
  - intros (s1 & s2 & -> & (c & -> & Hc)%matches_class_iff
                & Hs%matches_star_class).
    split; [done|]. rewrite app_cons_str, app_nil_str. simpl. by rewrite Hc.
  - intros [Hne Hall]. destruct s as [|c s]; [done|].
    simpl in Hall. apply andb_prop in Hall as [Hc Hs].
    exists (String c ""), s. split_and!; [done | by constructor
                                          | by apply matches_star_class].
Qed.

Lemma matches_dollar s : matches dollar s ↔ s = "" ∨ s = String "010" "".
Proof.
  unfold dollar. split.
  - inversion 1 as [| | |? ? ? H1|? ? ? H2| |]; subst.
    + inversion H1. by left.
    + apply matches_chr_iff in H2. by right.
  - intros [->| ->]; [apply matches_alt_l; constructor|].
    apply matches_alt_r. by apply matches_chr_iff.
Qed.

Lemma last_char_app (s t : string) :
  t ≠ "" → last_char (s +:+ t) = last_char t.
Proof.
  intros Ht. induction s as [|c s IH]; [done|].
  rewrite app_cons_str. simpl. rewrite IH.
  destruct t as [|d t]; [done|]. simpl. by destruct (last_char t).
Qed.

(** X7. What the fallback expression accepts: exactly the strings made of a
    local part, one [@], and a domain in two parts around a dot, each of the
    three parts a non-empty run of characters that are neither [@] nor white
    space, with at most one newline after them. So an accepted string has a
    single [@], a dot in its domain that is neither first nor last, and no
    embedded white space. *)
Theorem EMAIL_REGEX_shape (s : string) :
  EMAIL_REGEX_match s = true ↔
  ∃ local d1 d2 tail,
    s = local +:+ "@" +:+ d1 +:+ "." +:+ d2 +:+ tail ∧
    word local ∧ word d1 ∧ word d2 ∧ (tail = "" ∨ tail = String "010" "").
Proof.
  unfold EMAIL_REGEX_match. rewrite fullmatch_matches.
  unfold EMAIL_REGEX, word.
  change not_at_space with (Class atom).
  rewrite matches_cat_iff. split.
  - intros (local & s1 & -> & Hlocal%matches_plus_class & H1).
    apply matches_cat_iff in H1 as (at_ & s2 & -> & ->%matches_chr_iff & H2).
    apply matches_cat_iff in H2 as (d1 & s3 & -> & Hd1%matches_plus_class & H3).
    apply matches_cat_iff in H3 as (dot & s4 & -> & ->%matches_chr_iff & H4).
    apply matches_cat_iff in H4
      as (d2 & tail & -> & Hd2%matches_plus_class & Htail%matches_dollar).
    by exists local, d1, d2, tail.
  - intros (local & d1 & d2 & tail & -> & Hlocal & Hd1 & Hd2 & Htail).
    exists local, ("@" +:+ d1 +:+ "." +:+ d2 +:+ tail).
    split_and!; [done | by apply matches_plus_class|].
    apply matches_cat; [by apply matches_chr_iff|].
    apply matches_cat; [by apply matches_plus_class|].
    apply matches_cat; [by apply matches_chr_iff|].
    apply matches_cat; [by apply matches_plus_class | by apply matches_dollar].
Qed.

End RegexFacts.

(** X8. An address that reaches the output through the fallback, the
    validator having raised on the candidate, is the candidate itself and has
    the shape [local@part.part]: three non-empty runs without [@] or white
    space, and nothing after them. *)
Theorem fallback_address_shape (validate_email : string → option string)
    (rec : record) (email_val email : string) :
  find_email rec = Some email_val →
  validate_email email_val = None →
  address_of validate_email rec = Some email →
  email = email_val ∧
  ∃ local d1 d2,
    email = local +:+ "@" +:+ d1 +:+ "." +:+ d2 ∧ word local ∧ word d1 ∧ word d2.
Proof.
  intros Hfind Hv Haddr.
  rewrite (address_of_find _ _ _ Hfind) in Haddr. unfold clean_email in Haddr.
  rewrite Hv in Haddr.
  destruct (EMAIL_REGEX_match email_val) eqn:Hre; [|done].
  injection Haddr as <-. split; [done|].
  apply EMAIL_REGEX_shape in Hre
    as (local & d1 & d2 & tail & Hshape & Hlocal & Hd1 & Hd2 & [->| ->]).
  - exists local, d1, d2. by rewrite app_empty_r in Hshape.
  - destruct (find_email_candidate _ _ Hfind) as (_ & [_ Hlast] & _).
    specialize (Hlast "010"%char).
    rewrite Hshape, <- !app_assoc_str, last_char_app in Hlast by done.
    by specialize (Hlast eq_refl).
Qed.

Lemma fallback_address_shape_witness :
  "john..doe@EXAMPLE.ORG" = "john..doe@EXAMPLE.ORG" ∧
  ∃ local d1 d2,
    "john..doe@EXAMPLE.ORG" = local +:+ "@" +:+ d1 +:+ "." +:+ d2 ∧
    word local ∧ word d1 ∧ word d2.
Proof.
  apply (fallback_address_shape (table_validator []) recShout
           "john..doe@EXAMPLE.ORG" "john..doe@EXAMPLE.ORG"); reflexivity.
Defined.

(** ** Dispatch, further *)

Section DispatchMore.







End DispatchMore.

Section DispatchSession.

Variables (server : Smtp) (config : Config) (messages : list EmailMessage)
  (rate_arg : option Q).

Local Abbreviation dispatch := (send_messages server config messages false rate_arg).
Local Abbreviation loop :=
  (send_loop server (pacing_delay (effective_rate config rate_arg))
     (length messages) 1 messages).






(** X11. A dispatch opens at most one session and closes the one it opened,
    whatever the server answers: when the connection itself fails, nothing
    follows the attempt; otherwise the trace is the connection, a body
    without any connection or [QUIT], and one [QUIT] at the very end, also
    when a later call raised. *)
Theorem dispatch_session_is_closed :
  (∀ e, connect_err server = Some e →
     dispatch = ([Connect (use_ssl config) (smtp_host config) (smtp_port config)],
                 Raise e))
  ∧ (connect_err server = None →
     ∃ body,
       trace dispatch =
         Connect (use_ssl config) (smtp_host config) (smtp_port config)
         :: body ++ [Quit] ∧
       Forall (λ ev, ev ≠ Quit ∧ ∀ ssl host port, ev ≠ Connect ssl host port)
         body).
Proof.
  assert (∀ i msgs,
            Forall (λ ev, ev ≠ Quit ∧ ∀ ssl host port, ev ≠ Connect ssl host port)
              (trace (send_loop server
                        (pacing_delay (effective_rate config rate_arg))
                        (length messages) i msgs))) as Hloop.
  { intros i msgs. revert i. induction msgs as [|msg rest IH]; intros i;
      [constructor|].
    rewrite send_loop_cons. trace_forall; try done.
    destruct (_ && _); by trace_forall. }
  split.
  - intros e He. unfold send_messages. rewrite He. by destruct (use_ssl config).
  - intros Hc. unfold send_messages. rewrite Hc.
    destruct (use_ssl config); rewrite bind_call_ok, trace_with_quit;
      eexists; (split; [done|]); trace_forall; try done; apply Hloop.
Qed.

(** X12. No message is handed to the server, and none is acknowledged, unless
    the whole opening succeeded: the connection, in STARTTLS mode the [EHLO]
    and the upgrade, and the login. In STARTTLS mode the credentials are not
    sent when the [EHLO] or the upgrade failed. *)
Theorem dispatch_needs_handshake :
  (connect_err server ≠ None ∨ login_err server ≠ None ∨
   (use_ssl config = false ∧
    (ehlo_err server ≠ None ∨ starttls_err server ≠ None)) →
   sent_messages (trace dispatch) = [] ∧ ok_lines (trace dispatch) = [] ∧
   ∃ e, outcome dispatch = Raise e)
  ∧ (use_ssl config = false →
     ehlo_err server ≠ None ∨ starttls_err server ≠ None →
     Forall (λ ev, ∀ user password, ev ≠ Login user password) (trace dispatch)).
Proof.
  unfold send_messages. split.
  - intros Hfail.
    destruct (connect_err server) as [ec|] eqn:Hc.
    { destruct (use_ssl config); by eauto. }
    destruct (use_ssl config) eqn:Hssl.
    + destruct (login_err server) as [el|] eqn:Hl; [by eauto|].
      by destruct Hfail as [?|[?|[? _]]].
    + destruct (ehlo_err server) as [ee|] eqn:He; [by eauto|].
      destruct (starttls_err server) as [et|] eqn:Ht; [by eauto|].
      destruct (login_err server) as [el|] eqn:Hl; [by eauto|].
      destruct Hfail as [?|[?|[_ [?|?]]]]; done.
  - intros Hssl Hfail. rewrite Hssl.
    destruct (connect_err server) as [ec|]; [by repeat constructor|].
    destruct (ehlo_err server) as [ee|] eqn:He; [by repeat constructor|].
    destruct (starttls_err server) as [et|] eqn:Ht; [by repeat constructor|].
    by destruct Hfail.
Qed.

End DispatchSession.

(** ** The driver, further *)


Lemma phased_no_transport t :
  Forall (λ ev, is_transport ev = false) t → phased t.
Proof. intros H. exists t, []. by rewrite app_nil_r. Qed.

Lemma phased_no_file t : Forall (λ ev, is_file_event ev = false) t → phased t.
Proof. intros H. by exists [], t. Qed.

Lemma phased_bind {A B} (m : io A) (f : A → io B) :
  Forall (λ ev, is_transport ev = false) (trace m) →
  (∀ a, phased (trace (f a))) → phased (trace (m ≫= f)).
Proof.
  intros Hm Hf. rewrite trace_bind.
  destruct (outcome m) as [a|e]; [|by apply phased_no_transport].
  destruct (Hf a) as (pre & post & -> & Hpre & Hpost).
  exists (trace m ++ pre), post. split_and!; [by rewrite app_assoc | | done].
  apply Forall_app. by split.
Qed.

Lemma send_loop_no_file server delay total i messages :
  Forall (λ ev, is_file_event ev = false)
    (trace (send_loop server delay total i messages)).
Proof.
  revert i. induction messages as [|msg rest IH]; intros i; [constructor|].
  rewrite send_loop_cons. trace_forall; try done.
  destruct (_ && _); by trace_forall.
Qed.

Lemma send_messages_no_file server config messages dry_run rate_arg :
  Forall (λ ev, is_file_event ev = false)
    (trace (send_messages server config messages dry_run rate_arg)).
Proof.
  unfold send_messages. destruct dry_run; [by trace_forall|].
  destruct (use_ssl config); trace_forall; try done; apply send_loop_no_file.
Qed.

Lemma send_and_exit_no_file w cfg args messages :
  Forall (λ ev, is_file_event ev = false)
    (trace (send_and_exit w cfg args messages)).
Proof.
  unfold send_and_exit.
  apply Forall_trace_try_except; [|intros e; by trace_forall].
  apply Forall_trace_bind; [apply send_messages_no_file | intros; by trace_forall].
Qed.


Section DriverMore.

Variable validate_email : string -> option string.
Variable jinja_render : string -> record -> result string.
Variable html2text : string -> string.

Local Abbreviation run_main := (main validate_email jinja_render html2text).
Local Abbreviation render_loop := (render_pairs jinja_render html2text).

















(** X19. Every run of [main] is in two phases: whatever it writes to the
    file system, it writes before its first call to the SMTP server. All
    rendering and all previews are done when the session opens. *)
Theorem main_is_phased w args : phased (trace (run_main w args)).
Proof.
  assert (∀ cfg msgs, phased (trace (send_and_exit w cfg args msgs))) as Hend.
  { intros. apply phased_no_file, send_and_exit_no_file. }
  unfold main.
  destruct (from_env w) as [cfg|e];
    [|apply phased_no_transport; by trace_forall].
  destruct (opt_truthy (args_test args)).
  - unfold test_branch, render_template.
    apply phased_bind; [by trace_forall | intros html].
    apply phased_bind; [apply save_preview_no_transport | intros _].
    apply Hend.
  - destruct (opt_truthy (args_list args));
      [|apply phased_no_transport; by trace_forall].
    unfold list_branch.
    destruct (negb _); [apply phased_no_transport; by trace_forall|].
    apply phased_bind; [by trace_forall | intros data].
    apply phased_bind; [by trace_forall | intros records].
    destruct (extract_emails validate_email records) as [pairs missing].
    apply phased_bind;
      [destruct (args_verbose args); by trace_forall | intros _].
    apply phased_bind; [apply render_pairs_no_transport | intros msgs].
    apply phased_bind; [by trace_forall | intros _].
    apply Hend.
Qed.

End DriverMore.

(** ** Configuration *)

Section FromEnvFacts.

Variable int_of_str : string -> result Z.
Variable float_of_str : string -> result Q.
Variable path_str : string -> string.
Variable DEFAULT_SUBJECT : string.
Variables (env : gmap string string) (path_exists : string -> bool).

Local Abbreviation load_config :=
  (Config_from_env int_of_str float_of_str path_str DEFAULT_SUBJECT env
     path_exists).
Local Abbreviation port_text := (getenv env "SMTP_PORT" "465").
Local Abbreviation template :=
  (path_str (getenv env "TEMPLATE_PATH" "email-template.html")).

(** X20. A [Config] that [from_env] returns has the credentials of the
    environment, both non-empty, and a template that exists; the host, port
    text and template default to [smtp.gmail.com], [465] and
    [email-template.html]; the sender name defaults to the user name; the
    rate is absent exactly when [RATE_PER_MIN] is unset or empty; and
    [SMTP_USE_SSL] counts as true exactly when its lower-cased value is one
    of [1], [true], [yes], [on], and when it is unset. *)
Theorem from_env_config cfg :
  load_config = Ok cfg →
  env !! "SMTP_USERNAME" = Some (smtp_username cfg) ∧ smtp_username cfg ≠ ""
  ∧ env !! "SMTP_PASSWORD" = Some (smtp_password cfg) ∧ smtp_password cfg ≠ ""
  ∧ template_path cfg = template ∧ path_exists (template_path cfg) = true
  ∧ int_of_str port_text = Ok (smtp_port cfg)
  ∧ smtp_host cfg = getenv env "SMTP_HOST" "smtp.gmail.com"
  ∧ from_name cfg = getenv env "FROM_NAME" (smtp_username cfg)
  ∧ reply_to cfg = env !! "REPLY_TO"
  ∧ (rate_per_minute cfg = None ↔ opt_truthy (env !! "RATE_PER_MIN") = false)
  ∧ (use_ssl cfg = true ↔
     lower (getenv env "SMTP_USE_SSL" "true") ∈ TRUE_WORDS)
  ∧ (env !! "SMTP_USE_SSL" = None → use_ssl cfg = true).
Proof.
  unfold Config_from_env.
  destruct (int_of_str port_text) as [port|e]; [|done].
  destruct (env !! "RATE_PER_MIN") as [text|] eqn:Hrate.
  - destruct (env !! "SMTP_USERNAME") as [[|c user]|];
      destruct (env !! "SMTP_PASSWORD") as [[|c' pw]|];
      destruct (str_truthy text) eqn:Htext;
      try destruct (float_of_str text) as [rate|e];
      simpl; try done;
      destruct (path_exists template) eqn:Hex; simpl; try done;
      intros [= <-]; simpl;
      (split_and!;
       first [ done | by split | by rewrite Htext
             | apply bool_decide_eq_true
             | intros Hssl; unfold getenv; rewrite Hssl; by vm_compute ]).
  - destruct (env !! "SMTP_USERNAME") as [[|c user]|];
      destruct (env !! "SMTP_PASSWORD") as [[|c' pw]|];
      simpl; try done;
      destruct (path_exists template) eqn:Hex; simpl; try done;
      intros [= <-]; simpl;
      (split_and!;
       first [ done | by split | apply bool_decide_eq_true
             | intros Hssl; unfold getenv; rewrite Hssl; by vm_compute ]).
Qed.

Lemma load_config_after_parsing port :
  int_of_str port_text = Ok port → rate_readable float_of_str env →
  load_config =
  if negb (opt_truthy (env !! "SMTP_USERNAME")) then
    Raise (RuntimeError "Missing SMTP_USERNAME in .env")
  else if negb (opt_truthy (env !! "SMTP_PASSWORD")) then
    Raise (RuntimeError
             "Missing SMTP_PASSWORD in .env (use your Gmail App Password)")
  else if negb (path_exists template) then Raise (missing_template template)
  else load_config.
Proof.
  intros Hport Hrate. unfold Config_from_env. rewrite Hport.
  unfold rate_readable in Hrate.
  destruct (env !! "RATE_PER_MIN") as [text|].
  - destruct (str_truthy text) eqn:Htext.
    + destruct (Hrate text eq_refl Htext) as [rate ->].
      destruct (negb (opt_truthy (env !! "SMTP_USERNAME"))); [done|].
      destruct (negb (opt_truthy (env !! "SMTP_PASSWORD"))); [done|].
      by destruct (negb (path_exists template)).
    + destruct (negb (opt_truthy (env !! "SMTP_USERNAME"))); [done|].
      destruct (negb (opt_truthy (env !! "SMTP_PASSWORD"))); [done|].
      by destruct (negb (path_exists template)).
  - destruct (negb (opt_truthy (env !! "SMTP_USERNAME"))); [done|].
    destruct (negb (opt_truthy (env !! "SMTP_PASSWORD"))); [done|].
    by destruct (negb (path_exists template)).
Qed.

(** X21. Why [from_env] fails, in the order it checks: a port text [int]
    cannot read, then a non-empty [RATE_PER_MIN] that [float] cannot read,
    each with the exception of the built-in and before any look at the
    credentials; then a user name that is unset or empty; then such a
    password; then a template that does not exist. When none of these
    holds, it returns a [Config]. *)
Theorem from_env_failures :
  (∀ e, int_of_str port_text = Raise e → load_config = Raise e)
  ∧ (∀ port text e,
       int_of_str port_text = Ok port →
       env !! "RATE_PER_MIN" = Some text → str_truthy text = true →
       float_of_str text = Raise e → load_config = Raise e)
  ∧ (∀ port,
       int_of_str port_text = Ok port → rate_readable float_of_str env →
       (opt_truthy (env !! "SMTP_USERNAME") = false →
        load_config = Raise (RuntimeError "Missing SMTP_USERNAME in .env"))
       ∧ (opt_truthy (env !! "SMTP_USERNAME") = true →
          opt_truthy (env !! "SMTP_PASSWORD") = false →
          load_config =
          Raise (RuntimeError
                   "Missing SMTP_PASSWORD in .env (use your Gmail App Password)"))
       ∧ (opt_truthy (env !! "SMTP_USERNAME") = true →
          opt_truthy (env !! "SMTP_PASSWORD") = true →
          path_exists template = false →
          load_config = Raise (missing_template template))
       ∧ (opt_truthy (env !! "SMTP_USERNAME") = true →
          opt_truthy (env !! "SMTP_PASSWORD") = true →
          path_exists template = true →
          ∃ cfg, load_config = Ok cfg)).
Proof.
  split_and!.
  - intros e He. unfold Config_from_env. by rewrite He.
  - intros port text e Hport Hrate Htext He. unfold Config_from_env.
    by rewrite Hport, Hrate, Htext, He.
  - intros port Hport Hrate.
    pose proof (load_config_after_parsing port Hport Hrate) as Heq.
    split_and!.
    + intros Hu. by rewrite Hu in Heq.
    + intros Hu Hp. by rewrite Hu, Hp in Heq.
    + intros Hu Hp Hex. by rewrite Hu, Hp, Hex in Heq.
    + intros Hu Hp Hex. clear Heq. unfold Config_from_env. rewrite Hport.
      assert (∃ r, match env !! "RATE_PER_MIN" with
                   | Some text =>
                       if str_truthy text then
                         match float_of_str text with
                         | Ok rate => Ok (Some rate)
                         | Raise e => Raise e
                         end
                       else Ok None
                   | None => Ok None
                   end = Ok r) as [r ->].
      { unfold rate_readable in Hrate.
        destruct (env !! "RATE_PER_MIN") as [text|]; [|by eexists].
        destruct (str_truthy text) eqn:Htext; [|by eexists].
        destruct (Hrate text eq_refl Htext) as [rate ->]. by eexists. }
      rewrite Hu, Hp, Hex. simpl. by eexists.
Qed.

End FromEnvFacts.

(** ** Order of the addressed output *)

Lemma filter_all {A} (P : A → Prop) `{∀ x, Decision (P x)} (l : list A) :
  Forall P l → filter P l = l ∧ filter (λ x, ¬ P x) l = [].
Proof.
  induction 1 as [|x l Hx _ [IH1 IH2]]; [done|].
  rewrite !filter_cons, decide_True, decide_False by auto.
  by rewrite IH1, IH2.
Qed.

(** X22. When the addresses found are pairwise distinct after lower-casing,
    de-duplication removes nothing: the addressed output is what the first
    loop found, in input order. If moreover every record has an address that
    passes validation, the records of the addressed output are the input
    records, in order, and nothing is rejected. *)
Theorem distinct_addresses_all_kept (validate_email : string → option string)
    (records : list record) :
  NoDup ((lower ∘ fst) <$> (collect validate_email records).1) →
  (extract_emails validate_email records).1 = (collect validate_email records).1
  ∧ (Forall (λ r, is_Some (address_of validate_email r)) records →
     snd <$> (extract_emails validate_email records).1 = records
     ∧ (extract_emails validate_email records).2 = []).
Proof.
  intros Hdistinct.
  assert ((extract_emails validate_email records).1
          = (collect validate_email records).1) as Hkept.
  { rewrite extract_emails_eq, dedup_dedup_from. simpl fst.
    apply dedup_from_id; [exact Hdistinct|].
    intros k _. apply not_elem_of_empty. }
  split; [exact Hkept|]. intros Hall.
  destruct (filter_all _ records Hall) as [Hyes Hno].
  rewrite Hkept, extract_emails_eq, collect_eq. simpl.
  by rewrite omap_addressed_snd, Hyes, Hno.
Qed.

Lemma distinct_addresses_all_kept_witness :
  snd <$> (extract_emails (table_validator []) two_contacts).1 = two_contacts
  ∧ (extract_emails (table_validator []) two_contacts).2 = [].
Proof.
  destruct (distinct_addresses_all_kept (table_validator []) two_contacts)
    as [_ Hall].
  - vm_compute. repeat constructor; intros H;
      repeat (apply elem_of_cons in H as [H|H]; [discriminate H|]);
      by apply elem_of_nil in H.
  - apply Hall. repeat constructor; by eexists.
Defined.

(** ** Concrete runs, further *)




Lemma dispatch_session_is_closed_witness :
  ∃ body,
    trace (send_messages (flaky_server 1) demo_config demo_messages false None)
    = Connect true "smtp.gmail.com" 465 :: body ++ [Quit] ∧
    Forall (λ ev, ev ≠ Quit ∧ ∀ ssl host port, ev ≠ Connect ssl host port) body.
Proof.
  apply (proj2 (dispatch_session_is_closed (flaky_server 1) demo_config
                  demo_messages None)).
  reflexivity.
Defined.

Lemma dispatch_needs_handshake_witness :
  let run := send_messages deaf_server demo_config demo_messages false None in
  sent_messages (trace run) = [] ∧ ok_lines (trace run) = [] ∧
  ∃ e, outcome run = Raise e.
Proof.
  apply (proj1 (dispatch_needs_handshake deaf_server demo_config demo_messages
                  None)).
  right. left. discriminate.
Defined.









Lemma from_env_config_witness :
  use_ssl demo_env_config = true ∧ rate_per_minute demo_env_config = None ∧
  smtp_host demo_env_config = getenv demo_env "SMTP_HOST" "smtp.gmail.com".
Proof.
  destruct (from_env_config demo_int demo_float id "Hello" demo_env
              (fun _ => true) demo_env_config)
    as (_ & _ & _ & _ & _ & _ & _ & Hhost & _ & _ & Hrate & Hssl & _).
  - by vm_compute.
  - split_and!; [|by apply Hrate; vm_compute | exact Hhost].
    apply Hssl. by vm_compute.
Defined.

Lemma from_env_failures_witness :
  Config_from_env demo_int demo_float id "Hello" ∅ (fun _ => true)
  = Raise (RuntimeError "Missing SMTP_USERNAME in .env").
Proof.
  destruct (from_env_failures demo_int demo_float id "Hello" ∅ (fun _ => true))
    as (_ & _ & Hchecks).
  destruct (Hchecks 465%Z) as (Huser & _).
  - reflexivity.
  - intros text Htext. by rewrite lookup_empty in Htext.
  - apply Huser. reflexivity.
Defined.
